(** * The Neovim RPC session of neovim.cpp

    A shallow embedding of [src/neovim.cpp]: the table of pending response
    handlers, the classification and routing of decoded messages, the
    set-up of the transport ([spawn], [connect]) and the write path
    ([rpc_request], [io_can_write]), followed by the properties of the
    specification that concern them.

    Conventions.
    - [size_t] and [uint32_t] values that come off the wire are integers
      of [Z] with the wrap-around of the conversions written out; indices
      into [std::vector] are [nat].
    - An element access outside a vector ([operator[]] out of range) or a
      [get<T>] on the wrong alternative has no defined behaviour in the
      source; the functions that can reach one return [option], and [None]
      stands for it.
    - Effects that leave the session (logging, the user interface, Grand
      Central Dispatch, system calls) are returned as a list of events, in
      the order the source performs them.
    - A response handler is code of the caller's; what it does when it is
      called is given by the calls it makes on the session while it runs. *)

From Stdlib Require Import ZArith Lia String Ascii Strings.Byte.
From stdpp Require Import base tactics option list numbers.

#[local] Set Warnings "-register-all".
Local Open Scope Z_scope.

(** ** Decoded values *)

(** Modelled from the spec: [msg::object] of msgpack.hpp, which is not among
    the sources.  The decoded value is a variant over the families of the
    wire format; [neovim.cpp] only tells [msg::integer], [msg::string] and
    [msg::array] apart from the rest. *)
Module msg.

Inductive object : Type :=
| null
| boolean (b : bool)
| integer (z : Z)
| float (bits : Z)
| string (s : String.string)
| binary (bytes : list byte)
| array (elements : list object)
| map (entries : list (object * object))
| extension (type : Z) (data : list byte).

(** [obj.is<msg::integer>()], [obj.is<msg::string>()], [obj.is<msg::array>()] *)
Definition is_integer (o : object) : bool :=
  match o with integer _ => true | _ => false end.

Definition is_string (o : object) : bool :=
  match o with string _ => true | _ => false end.

Definition is_array (o : object) : bool :=
  match o with array _ => true | _ => false end.

(** [obj.get<T>()]: defined on the alternative [T] only. *)
Definition get_integer (o : object) : option Z :=
  match o with integer z => Some z | _ => None end.

Definition get_string (o : object) : option String.string :=
  match o with string s => Some s | _ => None end.

Definition get_array (o : object) : option (list object) :=
  match o with array a => Some a | _ => None end.

(** The two renderings used in log lines, [msg::type_string] and
    [msg::to_string], kept symbolic: the text is a function of the value. *)
Inductive rendering : Type :=
| type_string (o : object)
| to_string (o : object).

End msg.

(** ** Integer conversions *)

(** [std::numeric_limits<uint32_t>::max()] *)
Definition null_msgid : Z := 4294967295.

(** [static_cast<uint32_t>] of a [size_t] *)
Definition to_uint32 (n : Z) : Z := n mod 2 ^ 32.

(** The implicit conversion of a [msg::integer] (a 64-bit integer, signed or
    unsigned) to [size_t]. *)
Definition to_size_t (z : Z) : Z := z mod 2 ^ 64.

(** ** The table of response handlers *)

(** [response_handler] is a [std::function]: it either holds a callable
    target or is empty.  Targets are opaque and named by a number. *)
Inductive response_handler : Type :=
| empty_handler
| target (k : nat).

(** [explicit operator bool] of [std::function] *)
Definition callable (h : response_handler) : bool :=
  match h with empty_handler => false | target _ => true end.

Record response_handler_table : Type := mk_table {
  handlers : list response_handler;
  last_index : nat
}.

Definition has_handler (t : response_handler_table) (id : Z) : bool :=
  if id <? Z.of_nat (length (handlers t))
  then match handlers t !! Z.to_nat id with
       | Some h => callable h
       | None => false
       end
  else false.

Definition get (t : response_handler_table) (id : Z) : option response_handler :=
  handlers t !! Z.to_nat id.

(** One [for] loop of [find_empty]: [n] iterations from index [i], each
    reading [handlers[i]] and returning [i] when the slot is empty. *)
Inductive scan_result : Type :=
| returned (i : nat)
| fell_through
| out_of_range.

Fixpoint scan (hs : list response_handler) (i n : nat) : scan_result :=
  match n with
  | O => fell_through
  | S n' =>
      match hs !! i with
      | None => out_of_range
      | Some h => if callable h then scan hs (S i) n' else returned i
      end
  end.

Definition find_empty (t : response_handler_table) : option nat :=
  let size := length (handlers t) in
  match scan (handlers t) (last_index t + 1) (size - (last_index t + 1)) with
  | returned i => Some i
  | out_of_range => None
  | fell_through =>
      match scan (handlers t) 0 (last_index t + 1) with
      | returned i => Some i
      | out_of_range => None
      | fell_through => Some size
      end
  end.

Definition store (t : response_handler_table) (handler : response_handler)
  : option (Z * response_handler_table) :=
  match find_empty t with
  | None => None
  | Some index =>
      let hs :=
        if (index =? length (handlers t))%nat
        then resize (length (handlers t) * 2) empty_handler (handlers t)
        else handlers t in
      if (index <? length hs)%nat
      then Some (to_uint32 (Z.of_nat index),
                 {| handlers := <[index := handler]> hs; last_index := index |})
      else None
  end.

(** [store] called once per handler of a list, in order; the ids returned. *)
Fixpoint store_all (t : response_handler_table) (hs : list response_handler)
  : option (list Z * response_handler_table) :=
  match hs with
  | [] => Some ([], t)
  | h :: rest =>
      match store t h with
      | None => None
      | Some (id, t') =>
          match store_all t' rest with
          | None => None
          | Some (ids, t'') => Some (id :: ids, t'')
          end
      end
  end.

(** ** Events *)

Inductive source_name : Type := reader | writer.

Inductive event : Type :=
(* os_log_error(rpc, "Message type error - Type=%s, Value=%s", ...) *)
| log_message_type_error (type value : msg.rendering)
(* os_log_error(rpc, "No response handler - ID=%zu, Response=%s", ...) *)
| log_no_response_handler (id : Z) (response : msg.rendering)
(* os_log_info(rpc, "Unhanled notification - Name=%.*s, Args=%s", ...) *)
| log_unhandled_notification (precision : nat) (name : String.string)
                             (args : msg.rendering)
(* handler(array[2], array[3]) on the target [k] *)
| invoke (k : nat) (error result : msg.object)
| ui_redraw (args : list msg.object)
| ui_window_close
| dispatch_resume (s : source_name)
| dispatch_suspend (s : source_name)
| dispatch_source_cancel (s : source_name).

(** ** The session object *)

(** A dispatch source as far as the session uses it: its suspension count
    (a source is created suspended, [dispatch_resume] takes one off the
    count, [dispatch_suspend] adds one, and the event handler only runs at
    count zero) and whether it was cancelled. *)
Record dispatch_source : Type := mk_source {
  suspend_count : Z;
  cancelled : bool
}.

Definition dispatch_source_create : dispatch_source := mk_source 1 false.

Definition resumed (d : dispatch_source) : dispatch_source :=
  mk_source (suspend_count d - 1) (cancelled d).

Definition suspended (d : dispatch_source) : dispatch_source :=
  mk_source (suspend_count d + 1) (cancelled d).

Definition cancel (d : dispatch_source) : dispatch_source :=
  mk_source (suspend_count d) true.

Record neovim : Type := mk_neovim {
  queue : bool;                       (* false for nullptr *)
  read_source : option dispatch_source;
  write_source : option dispatch_source;
  read_fd : Z;
  write_fd : Z;
  handler_table : response_handler_table;
  packer : list byte                  (* the bytes packed and not yet written *)
}.

(** [neovim::neovim()]; the table starts as the class declaration of
    neovim.hpp, which is not among the sources, builds it. *)
Definition neovim_new (table : response_handler_table) : neovim :=
  mk_neovim false None None (-1) (-1) table [].

Definition with_fds (s : neovim) (rfd wfd : Z) : neovim :=
  mk_neovim (queue s) (read_source s) (write_source s) rfd wfd
            (handler_table s) (packer s).

Definition with_write_source (s : neovim) (d : dispatch_source) : neovim :=
  mk_neovim (queue s) (read_source s) (Some d) (read_fd s) (write_fd s)
            (handler_table s) (packer s).

Definition with_handler_table (s : neovim) (t : response_handler_table) : neovim :=
  mk_neovim (queue s) (read_source s) (write_source s) (read_fd s) (write_fd s)
            t (packer s).

Definition with_packer (s : neovim) (p : list byte) : neovim :=
  mk_neovim (queue s) (read_source s) (write_source s) (read_fd s) (write_fd s)
            (handler_table s) p.

(** [create_sources]: both sources are created, the read source is
    resumed, the write source is left suspended. *)
Definition create_sources (s : neovim) : Z * neovim :=
  (0, mk_neovim true
        (Some (resumed dispatch_source_create))
        (Some dispatch_source_create)
        (read_fd s) (write_fd s) (handler_table s) (packer s)).

(** ** The packer *)

(** Modelled from the spec: the packer of msgpack.hpp, which is not among
    the sources; the encodings are those of the MessagePack format, each
    value in its shortest form.  [uint_be n v] is [v] on [n] bytes, most
    significant first. *)
Definition byte_of_Z (z : Z) : byte :=
  match Byte.of_N (Z.to_N (z mod 256)) with
  | Some b => b
  | None => x00
  end.

Fixpoint uint_be (n : nat) (v : Z) : list byte :=
  match n with
  | O => []
  | S n' => byte_of_Z (Z.shiftr v (8 * Z.of_nat n')) :: uint_be n' v
  end.

Definition start_array (n : nat) : list byte :=
  let z := Z.of_nat n in
  if z <? 16 then [byte_of_Z (144 + z)]
  else if z <? 65536 then byte_of_Z 220 :: uint_be 2 z
  else byte_of_Z 221 :: uint_be 4 z.

Definition start_map (n : nat) : list byte :=
  let z := Z.of_nat n in
  if z <? 16 then [byte_of_Z (128 + z)]
  else if z <? 65536 then byte_of_Z 222 :: uint_be 2 z
  else byte_of_Z 223 :: uint_be 4 z.

Definition pack_uint64 (v : Z) : list byte :=
  if v <? 128 then [byte_of_Z v]
  else if v <? 256 then byte_of_Z 204 :: uint_be 1 v
  else if v <? 65536 then byte_of_Z 205 :: uint_be 2 v
  else if v <? 4294967296 then byte_of_Z 206 :: uint_be 4 v
  else byte_of_Z 207 :: uint_be 8 v.

Definition pack_int64 (v : Z) : list byte :=
  if 0 <=? v then pack_uint64 v
  else if -32 <=? v then [byte_of_Z v]
  else if -128 <=? v then byte_of_Z 208 :: uint_be 1 v
  else if -32768 <=? v then byte_of_Z 209 :: uint_be 2 v
  else if -2147483648 <=? v then byte_of_Z 210 :: uint_be 4 v
  else byte_of_Z 211 :: uint_be 8 v.

Definition pack_string (s : String.string) : list byte :=
  let z := Z.of_nat (String.length s) in
  (if z <? 32 then [byte_of_Z (160 + z)]
   else if z <? 256 then byte_of_Z 217 :: uint_be 1 z
   else if z <? 65536 then byte_of_Z 218 :: uint_be 2 z
   else byte_of_Z 219 :: uint_be 4 z)
  ++ list_byte_of_string s.

Definition pack_bool (b : bool) : list byte :=
  [byte_of_Z (if b then 195 else 194)].

(** The argument types [neovim.cpp] instantiates [rpc_request] with. *)
Inductive rpc_arg : Type :=
| arg_string (s : String.string)
| arg_int (v : Z)
| arg_options (m : list (String.string * bool)).

Definition pack (a : rpc_arg) : list byte :=
  match a with
  | arg_string s => pack_string s
  | arg_int v => pack_int64 v
  | arg_options m =>
      start_map (length m)
      ++ concat (map (fun kv => pack_string (fst kv) ++ pack_bool (snd kv)) m)
  end.

(** ** Requests *)

(** How an operation ends: it returns, [std::abort] ends the process, or
    the source has no defined behaviour there. *)
Inductive outcome (A : Type) : Type :=
| finished (a : A)
| aborted
| undefined.
Arguments finished {A} a.
Arguments aborted {A}.
Arguments undefined {A}.

Definition rpc_request (s : neovim) (msgid : Z) (method : String.string)
  (args : list rpc_arg) : outcome (neovim * list event) :=
  let oldsize := length (packer s) in
  let p := packer s
           ++ start_array 4
           ++ pack_uint64 0
           ++ pack_uint64 msgid
           ++ pack_string method
           ++ start_array (length args)
           ++ concat (map pack args) in
  if (oldsize =? 0)%nat then
    match write_source s with
    | None => undefined
    | Some d =>
        finished (with_write_source (with_packer s p) (resumed d),
                  [dispatch_resume writer])
    end
  else finished (with_packer s p, []).

Definition get_api_info (s : neovim) (handler : response_handler)
  : outcome (neovim * list event) :=
  match store (handler_table s) handler with
  | None => undefined
  | Some (id, t) =>
      rpc_request (with_handler_table s t) id "nvim_get_api_info" []
  end.

Definition quit (s : neovim) (confirm : bool) : outcome (neovim * list event) :=
  let command := if confirm then "qa"%string else "qa!"%string in
  rpc_request s null_msgid "nvim_command" [arg_string command].

Definition ui_attach (s : neovim) (width height : Z)
  : outcome (neovim * list event) :=
  rpc_request s null_msgid "nvim_ui_attach"
    [arg_int width; arg_int height; arg_options [("ext_linegrid"%string, true)]].

(** ** What a handler does when it is called *)

(** A handler is a [std::function] given by the caller of [get_api_info];
    its body is not part of the session.  While it runs it can call the
    session back through the requests above, [get_api_info] with a further
    handler among them.  A target is named by its number, and a [behaviour]
    tells, for every target and the error and result it is called with, the
    calls it makes on the session, in order; the requests return nothing,
    so the calls do not depend on one another's outcome.  A handler that
    sets the session up again, destroys it, or leaves by an exception is
    not described by a [behaviour]. *)
Inductive api_call : Type :=
| call_get_api_info (handler : response_handler)
| call_quit (confirm : bool)
| call_ui_attach (width height : Z).

Definition behaviour : Type :=
  nat -> msg.object -> msg.object -> list api_call.

Definition api (s : neovim) (c : api_call) : outcome (neovim * list event) :=
  match c with
  | call_get_api_info handler => get_api_info s handler
  | call_quit confirm => quit s confirm
  | call_ui_attach width height => ui_attach s width height
  end.

Fixpoint run_calls (s : neovim) (cs : list api_call)
  : outcome (neovim * list event) :=
  match cs with
  | [] => finished (s, [])
  | c :: rest =>
      match api s c with
      | finished (s1, evs1) =>
          match run_calls s1 rest with
          | finished (s2, evs2) => finished (s2, evs1 ++ evs2)
          | aborted => aborted
          | undefined => undefined
          end
      | aborted => aborted
      | undefined => undefined
      end
  end.

(** ** Classification and routing of decoded messages *)

(** [array[i].is<T>()], read behind the size test of the conjunction. *)
Definition element_is (p : msg.object -> bool) (array : list msg.object)
  (i : nat) : bool :=
  match array !! i with Some o => p o | None => false end.

Definition element_equals (array : list msg.object) (i : nat) (v : Z) : bool :=
  match array !! i with Some (msg.integer z) => z =? v | _ => false end.

Definition is_notification (array : list msg.object) : bool :=
  (length array =? 3)%nat &&
  element_is msg.is_integer array 0 &&
  element_is msg.is_string array 1 &&
  element_is msg.is_array array 2 &&
  element_equals array 0 2.

Definition is_response (array : list msg.object) : bool :=
  (length array =? 4)%nat &&
  element_is msg.is_integer array 0 &&
  element_is msg.is_integer array 1 &&
  element_equals array 0 1.

(** [on_rpc_response].  [handler] is a reference to the slot of the
    vector, taken before the handler is called.  The call runs the body of
    the handler, which may store further handlers; a [store] that resizes
    the vector moves its elements, the function object that is running
    among them, and leaves the reference dangling, so that neither the rest
    of the call nor the assignment through the reference that follows it
    has a defined behaviour. *)
Definition on_rpc_response (B : behaviour) (s : neovim)
  (array : list msg.object) : option (neovim * list event) :=
  match array !! 1%nat ≫= msg.get_integer with
  | None => None
  | Some id =>
      let msgid := to_size_t id in
      if msgid =? null_msgid then Some (s, [])
      else if negb (has_handler (handler_table s) msgid) then
        Some (s, [log_no_response_handler msgid
                    (msg.to_string (msg.array array))])
      else
        match get (handler_table s) msgid, array !! 2%nat, array !! 3%nat with
        | Some (target k), Some error, Some result =>
            match run_calls s (B k error result) with
            | finished (s', evs) =>
                let t' := handler_table s' in
                if (length (handlers t')
                    =? length (handlers (handler_table s)))%nat
                then
                  Some (with_handler_table s'
                          {| handlers :=
                               <[Z.to_nat msgid := empty_handler]> (handlers t');
                             last_index := last_index t' |},
                        invoke k error result :: evs)
                else None
            | _ => None
            end
        | _, _, _ => None
        end
  end.

Definition on_rpc_notification (array : list msg.object)
  : option (list event) :=
  match array !! 1%nat ≫= msg.get_string, array !! 2%nat ≫= msg.get_array with
  | Some name, Some args =>
      if String.eqb name "redraw" then Some [ui_redraw args]
      else Some [log_unhandled_notification
                   (Nat.min (String.length name) 128) name
                   (msg.to_string (msg.array args))]
  | _, _ => None
  end.

Definition on_rpc_message (B : behaviour) (s : neovim) (obj : msg.object)
  : option (neovim * list event) :=
  let type_error :=
    Some (s, [log_message_type_error (msg.type_string obj) (msg.to_string obj)]) in
  match obj with
  | msg.array array =>
      if is_notification array then
        match on_rpc_notification array with
        | Some evs => Some (s, evs)
        | None => None
        end
      else if is_response array then on_rpc_response B s array
      else type_error
  | _ => type_error
  end.

(** The [while] loop of [io_can_read] over the objects the unpacker yields. *)
Fixpoint on_rpc_messages (B : behaviour) (s : neovim) (objs : list msg.object)
  : option (neovim * list event) :=
  match objs with
  | [] => Some (s, [])
  | obj :: rest =>
      match on_rpc_message B s obj with
      | None => None
      | Some (s', evs) =>
          match on_rpc_messages B s' rest with
          | None => None
          | Some (s'', evs') => Some (s'', evs ++ evs')
          end
      end
  end.

(** ** The operating system, as seen by [spawn] and [connect] *)

Inductive syscall : Type :=
| sys_pipe
| sys_socket
| sys_fcntl_cloexec (fd : Z)
| sys_connect (fd : Z) (path : String.string)
| sys_close (fd : Z)
| sys_process_spawn (path : String.string) (args env : list String.string)
                    (input output : Z).

Record os : Type := mk_os {
  open_fds : list Z;      (* the descriptors this process holds open *)
  errno : Z;
  calls : list syscall     (* the calls made so far, oldest first *)
}.

(** What the system answers to one call: success with a value, or the
    error number of the failure. *)
Inductive answer (A : Type) : Type :=
| succeeds (a : A)
| fails (e : Z).
Arguments succeeds {A} a.
Arguments fails {A} e.

Definition EINVAL : Z := 22.

(** Modelled from the spec: [sizeof(sockaddr_un::sun_path)] of the platform's
    <sys/un.h>; the program is built for Darwin ([sun_len] is set), where
    the member is [char sun_path[104]]. *)
Definition sun_path_size : nat := 104.

(** [socket(AF_UNIX, SOCK_STREAM, 0)] *)
Definition socket (a : answer Z) (w : os) : Z * os :=
  match a with
  | succeeds fd => (fd, mk_os (fd :: open_fds w) (errno w) (calls w ++ [sys_socket]))
  | fails e => (-1, mk_os (open_fds w) e (calls w ++ [sys_socket]))
  end.

(** [fcntl(sock, F_SETFD, FD_CLOEXEC)]; its result is not looked at. *)
Definition fcntl_cloexec (fd : Z) (w : os) : os :=
  mk_os (open_fds w) (errno w) (calls w ++ [sys_fcntl_cloexec fd]).

(** [::connect(sock, (sockaddr* )&unaddr, sizeof(unaddr))] with [unaddr]
    holding the path. *)
Definition sys_connect_call (a : answer unit) (fd : Z) (path : String.string)
  (w : os) : Z * os :=
  match a with
  | succeeds _ => (0, mk_os (open_fds w) (errno w) (calls w ++ [sys_connect fd path]))
  | fails e => (-1, mk_os (open_fds w) e (calls w ++ [sys_connect fd path]))
  end.

Definition close (fd : Z) (w : os) : os :=
  mk_os (filter (fun x => x <> fd) (open_fds w)) (errno w)
        (calls w ++ [sys_close fd]).

Definition connect (s : neovim) (addr : String.string)
  (socket_answer : answer Z) (connect_answer : answer unit) (w : os)
  : Z * neovim * os :=
  if (sun_path_size <=? String.length addr)%nat then (EINVAL, s, w)
  else
    let '(sock, w1) := socket socket_answer w in
    if sock =? -1 then (errno w1, s, w1)
    else
      let w2 := fcntl_cloexec sock w1 in
      let '(rc, w3) := sys_connect_call connect_answer sock addr w2 in
      if rc =? -1 then (errno w3, s, w3)
      else
        let '(r, s') := create_sources (with_fds s sock sock) in
        (r, s', w3).

(** Modelled from the spec: [unnamed_pipe] and [process_spawn] of spawn.hpp,
    which is not among the sources.  A pipe owns its two ends ([-1] when it
    holds none); [open] returns 0 or an error code; an end still owned when
    the pipe goes out of scope is closed, an end given up with [release] is
    not. *)
Record unnamed_pipe : Type := mk_pipe {
  read_end : Z;
  write_end : Z
}.

Definition unopened : unnamed_pipe := mk_pipe (-1) (-1).

Definition pipe_open (a : answer (Z * Z)) (w : os) : Z * unnamed_pipe * os :=
  match a with
  | succeeds (r, wr) =>
      (0, mk_pipe r wr, mk_os (r :: wr :: open_fds w) (errno w) (calls w ++ [sys_pipe]))
  | fails e => (e, unopened, mk_os (open_fds w) e (calls w ++ [sys_pipe]))
  end.

Definition close_owned (fd : Z) (w : os) : os :=
  if fd =? -1 then w else close fd w.

Definition pipe_destroy (p : unnamed_pipe) (w : os) : os :=
  close_owned (write_end p) (close_owned (read_end p) w).

(** [process_spawn] returns the [subprocess], of which [spawn] reads
    [error]: 0 when the child was launched. *)
Definition process_spawn (a : answer unit) (path : String.string)
  (args env : list String.string) (input output : Z) (w : os) : Z * os :=
  let w' := mk_os (open_fds w) (errno w)
                  (calls w ++ [sys_process_spawn path args env input output]) in
  match a with
  | succeeds _ => (0, w')
  | fails e => (e, w')
  end.

Definition spawn (s : neovim) (path : String.string)
  (args env : list String.string)
  (read_pipe_answer write_pipe_answer : answer (Z * Z))
  (spawn_answer : answer unit) (w : os) : Z * neovim * os :=
  let '(ec, read_pipe, w1) := pipe_open read_pipe_answer w in
  if negb (ec =? 0) then (ec, s, pipe_destroy read_pipe (pipe_destroy unopened w1))
  else
    let '(ec, write_pipe, w2) := pipe_open write_pipe_answer w1 in
    if negb (ec =? 0) then
      (ec, s, pipe_destroy read_pipe (pipe_destroy write_pipe w2))
    else
      let '(error, w3) :=
        process_spawn spawn_answer path args env
                      (read_end write_pipe) (write_end read_pipe) w2 in
      if negb (error =? 0) then
        (error, s, pipe_destroy read_pipe (pipe_destroy write_pipe w3))
      else
        let s1 := with_fds s (read_end read_pipe) (write_end write_pipe) in
        let '(r, s2) := create_sources s1 in
        (r, s2,
         pipe_destroy (mk_pipe (-1) (write_end read_pipe))
           (pipe_destroy (mk_pipe (read_end write_pipe) (-1)) w3)).

(** ** Reading and writing *)

(** What [read] and [write] return: -1 on failure (with [errno] set), the
    number of bytes transferred otherwise. *)
Inductive io_result : Type :=
| io_failed (e : Z)
| io_transferred (n : nat).

Definition ssize_of (r : io_result) : Z :=
  match r with
  | io_failed _ => -1
  | io_transferred n => Z.of_nat n
  end.

Definition io_error {A : Type} : outcome A := aborted.

Definition io_cancel (s : neovim) : outcome (neovim * list event) :=
  match write_source s with
  | None => undefined
  | Some d =>
      if negb (cancelled d) then
        finished (with_write_source s (cancel (resumed d)),
                  [dispatch_resume writer; dispatch_source_cancel writer])
      else finished (s, [])
  end.

(** [io_can_read]: [bytes] is what [read] returned, [objs] the objects the
    unpacker yields once the bytes read are fed to it. *)
Definition io_can_read (B : behaviour) (s : neovim) (bytes : Z)
  (objs : list msg.object) : outcome (neovim * list event) :=
  if bytes <=? 0 then
    if bytes =? -1 then io_error
    else
      match io_cancel s with
      | finished (s', evs) => finished (s', ui_window_close :: evs)
      | aborted => aborted
      | undefined => undefined
      end
  else
    match on_rpc_messages B s objs with
    | Some (s', evs) => finished (s', evs)
    | None => undefined
    end.

(** [io_can_write]: [bytes] is what [write] returned for the whole of the
    packer's buffer; [consume] drops that many bytes from its front. *)
Definition io_can_write (s : neovim) (bytes : Z)
  : outcome (neovim * list event) :=
  if bytes =? -1 then io_error
  else
    let p := drop (Z.to_nat bytes) (packer s) in
    if (length p =? 0)%nat then
      match write_source s with
      | None => undefined
      | Some d =>
          finished (with_write_source (with_packer s p) (suspended d),
                    [dispatch_suspend writer])
      end
    else finished (with_packer s p, []).

(** The session between two callbacks, while it is connected: a request
    is queued from any thread, as such or by [get_api_info], [quit] or
    [ui_attach]; or the write source, not being suspended,
    runs its handler on a [write] that took [n] bytes of the buffer; or the
    read source runs its handler on a [read] that brought bytes.  (A [read]
    of no bytes is the end of the stream: [io_cancel] then resumes the write
    source in order to cancel it, and the session is shutting down.) *)
Inductive step (B : behaviour) : neovim -> neovim -> Prop :=
| step_request s msgid method args s' evs :
    rpc_request s msgid method args = finished (s', evs) ->
    step B s s'
| step_call s c s' evs :
    api s c = finished (s', evs) ->
    step B s s'
| step_can_write s d n s' evs :
    write_source s = Some d ->
    suspend_count d = 0 ->
    (n <= length (packer s))%nat ->
    io_can_write s (ssize_of (io_transferred n)) = finished (s', evs) ->
    step B s s'
| step_can_read s n objs s' evs :
    io_can_read B s (ssize_of (io_transferred (S n))) objs = finished (s', evs) ->
    step B s s'.

Inductive reachable (B : behaviour) (s0 : neovim) : neovim -> Prop :=
| reach_start : reachable B s0 s0
| reach_step s s' : reachable B s0 s -> step B s s' -> reachable B s0 s'.

Definition write_suspended (s : neovim) : Prop :=
  exists d, write_source s = Some d /\ 0 < suspend_count d.

(** ** Predicates of the statements *)

(** The table as every [store] leaves it: the last index assigned is the
    index of a slot.  (The constructor of neovim.hpp is expected to set
    it up so.) *)
Definition table_ok (t : response_handler_table) : Prop :=
  (last_index t < length (handlers t))%nat.

Definition occupied (hs : list response_handler) (i : nat) : Prop :=
  exists k, hs !! i = Some (target k).

Definition vacant (hs : list response_handler) (i : nat) : Prop :=
  hs !! i = Some empty_handler.

(** Where round-robin allocation puts the next handler: the first vacant
    slot after [last_index]; failing that, the first vacant slot from the
    start up to [last_index]; failing that, the index one past the end. *)
Definition round_robin_choice (t : response_handler_table) (i : nat) : Prop :=
  let hs := handlers t in
  ((last_index t < i < length hs)%nat /\ vacant hs i /\
   forall j, (last_index t < j < i)%nat -> occupied hs j)
  \/
  ((i <= last_index t)%nat /\ vacant hs i /\
   (forall j, (last_index t < j < length hs)%nat -> occupied hs j) /\
   forall j, (j < i)%nat -> occupied hs j)
  \/
  (i = length hs /\ forall j, (j < length hs)%nat -> occupied hs j).

Definition full (t : response_handler_table) : Prop :=
  forall j, (j < length (handlers t))%nat -> occupied (handlers t) j.

(** A response message as it is decoded: [{1, id, error, result}]. *)
Definition response (id : Z) (error result : msg.object) : list msg.object :=
  [msg.integer 1; msg.integer id; error; result].

(** The table with the slot of [msgid] emptied. *)
Definition cleared (t : response_handler_table) (msgid : Z)
  : response_handler_table :=
  mk_table (<[Z.to_nat msgid := empty_handler]> (handlers t)) (last_index t).

(** What routing a response [{1, id, error, result}] amounts to, by cases
    as the specification words it: the sentinel id is ignored; an id with
    a stored handler has the handler called on [error] and [result] and
    then its slot cleared; any other id is logged with the whole message.
    Where the call of the handler grows the table the source gives no
    result. *)
Definition route_response (B : behaviour) (s : neovim) (msgid : Z)
  (error result : msg.object) (message : msg.object)
  : option (neovim * list event) :=
  if msgid =? null_msgid then Some (s, [])
  else
    match (if msgid <? Z.of_nat (length (handlers (handler_table s)))
           then handlers (handler_table s) !! Z.to_nat msgid else None) with
    | Some (target k) =>
        match run_calls s (B k error result) with
        | finished (s', evs) =>
            if (length (handlers (handler_table s'))
                =? length (handlers (handler_table s)))%nat
            then Some (with_handler_table s' (cleared (handler_table s') msgid),
                       invoke k error result :: evs)
            else None
        | _ => None
        end
    | _ => Some (s, [log_no_response_handler msgid (msg.to_string message)])
    end.

(** The behaviour in which the target [k0] calls [get_api_info] with the
    handler [h] when it is called, and no other target makes a call. *)
Definition reentrant (k0 : nat) (h : response_handler) : behaviour :=
  fun k _ _ => if (k =? k0)%nat then [call_get_api_info h] else [].

(** A handler that makes no call on the session, and the behaviour in
    which every handler is such a one. *)
Definition quiet : behaviour := fun _ _ _ => [].

(** The calls to [get_api_info] among the calls of a handler, and the
    vacant slots of a table. *)
Fixpoint stores_in (cs : list api_call) : nat :=
  match cs with
  | [] => 0
  | call_get_api_info _ :: rest => S (stores_in rest)
  | _ :: rest => stores_in rest
  end.

Fixpoint vacancies (hs : list response_handler) : nat :=
  match hs with
  | [] => 0
  | h :: rest => ((if callable h then 0 else 1) + vacancies rest)%nat
  end.

(** What dispatching a notification [{2, name, args}] amounts to. *)
Definition dispatch_notification (name : String.string) (args : list msg.object)
  : list event :=
  if String.eqb name "redraw" then [ui_redraw args]
  else [log_unhandled_notification (Nat.min (String.length name) 128) name
          (msg.to_string (msg.array args))].

(** The address exceeds the path-length limit of local-domain sockets when
    it does not fit in [sun_path] together with the terminating zero byte
    that [connect] counts in [sun_len]. *)
Definition exceeds_path_limit (addr : String.string) : Prop :=
  (sun_path_size < String.length addr + 1)%nat.

(** The write source and the buffer agree: the source is suspended once
    when the buffer is empty and not at all when it holds bytes. *)
Definition writer_in_step (s : neovim) : Prop :=
  exists d, write_source s = Some d /\
            suspend_count d = match packer s with [] => 1 | _ :: _ => 0 end.

(** ** Shutdown and destruction *)

Definition with_read_source (s : neovim) (d : dispatch_source) : neovim :=
  mk_neovim (queue s) (Some d) (write_source s) (read_fd s) (write_fd s)
            (handler_table s) (packer s).

(** What the teardown of a session does besides the events above. *)
Inductive teardown_event : Type :=
| ui_window_shutdown                       (* ui.window.shutdown() *)
| puts (line : String.string)
| dispatch_release_queue
| dispatch_release_source (s : source_name).

(** The cancel handler [create_sources] installs on the write source:
    [dispatch_source_cancel(ptr->read_source)]. *)
Definition write_source_cancel_handler (s : neovim)
  : outcome (neovim * list event) :=
  match read_source s with
  | None => undefined
  | Some d =>
      finished (with_read_source s (cancel d), [dispatch_source_cancel reader])
  end.

(** The cancel handler of the read source: [ptr->ui.window.shutdown()]. *)
Definition read_source_cancel_handler (s : neovim)
  : neovim * list teardown_event :=
  (s, [ui_window_shutdown]).

Definition dispatch_source_testcancel (d : dispatch_source) : bool :=
  cancelled d.

(** [neovim::~neovim()].  [assertions] says whether [assert] is compiled
    in (no [NDEBUG]); a failed assertion ends the process.  The sources are
    dereferenced by the dispatch calls, so a null source has no defined
    behaviour. *)
Definition neovim_destroy (assertions : bool) (s : neovim) (w : os)
  : outcome (os * list teardown_event) :=
  let line := puts "neovim destructor" in
  if negb (queue s) then finished (w, [line])
  else
    match read_source s, write_source s with
    | Some rd, Some wr =>
        if assertions && negb (dispatch_source_testcancel rd) then aborted
        else if assertions && negb (dispatch_source_testcancel wr) then aborted
        else if assertions
                && negb (negb (read_fd s =? -1) && negb (write_fd s =? -1))
        then aborted
        else
          let w1 := close (read_fd s) w in
          let w2 := if negb (read_fd s =? write_fd s)
                    then close (write_fd s) w1 else w1 in
          finished (w2, [line; dispatch_release_queue;
                         dispatch_release_source reader;
                         dispatch_release_source writer])
    | _, _ => undefined
    end.

(** The calls that close a descriptor. *)
Definition is_close (c : syscall) : bool :=
  match c with sys_close _ => true | _ => false end.

(** A failure reported by the system carries an error number other than
    0, which is what [spawn] takes for success. *)
Definition reports_failure {A : Type} (a : answer A) : Prop :=
  a <> fails 0.

(** ** Runs of the write path *)

(** The bytes one [rpc_request] packs. *)
Definition request_bytes (msgid : Z) (method : String.string)
  (args : list rpc_arg) : list byte :=
  start_array 4 ++ pack_uint64 0 ++ pack_uint64 msgid ++ pack_string method
  ++ start_array (length args) ++ concat (map pack args).

(** A request queued, or the write handler run on a [write] that took the
    first [n] bytes of the buffer. *)
Inductive action : Type :=
| queue_request (msgid : Z) (method : String.string) (args : list rpc_arg)
| write_ready (n : nat).

(** The session after a list of actions, with the bytes that went out on
    the descriptor, in order. *)
Fixpoint run (s : neovim) (acts : list action)
  : outcome (neovim * list byte) :=
  match acts with
  | [] => finished (s, [])
  | queue_request msgid method args :: rest =>
      match rpc_request s msgid method args with
      | finished (s', _) => run s' rest
      | aborted => aborted
      | undefined => undefined
      end
  | write_ready n :: rest =>
      match io_can_write s (ssize_of (io_transferred n)) with
      | finished (s', _) =>
          match run s' rest with
          | finished (s'', wire) => finished (s'', take n (packer s) ++ wire)
          | aborted => aborted
          | undefined => undefined
          end
      | aborted => aborted
      | undefined => undefined
      end
  end.

Fixpoint requested (acts : list action) : list byte :=
  match acts with
  | [] => []
  | queue_request msgid method args :: rest =>
      request_bytes msgid method args ++ requested rest
  | write_ready _ :: rest => requested rest
  end.

(** ** Counting *)

(** The handlers a table holds, and the calls among a list of events. *)
Fixpoint pending (hs : list response_handler) : nat :=
  match hs with
  | [] => 0
  | h :: rest => ((if callable h then 1 else 0) + pending rest)%nat
  end.

Fixpoint invocations (evs : list event) : nat :=
  match evs with
  | [] => 0
  | invoke _ _ _ :: rest => S (invocations rest)
  | _ :: rest => invocations rest
  end.

(** * Properties *)

(** Side conditions on a table or a buffer written out in full. *)
Ltac by_computation :=
  first [ reflexivity
        | unfold table_ok, null_msgid, exceeds_path_limit, sun_path_size;
          simpl; lia
        | discriminate ].

(** ** The definitions on small inputs *)

Example store_ex1 :
  store (mk_table [empty_handler; target 1; empty_handler] 0) (target 7)
  = Some (2, mk_table [empty_handler; target 1; target 7] 2).
Proof. reflexivity. Qed.

Example store_ex2 :
  store (mk_table [target 0; target 1] 1) (target 7)
  = Some (2, mk_table [target 0; target 1; target 7; empty_handler] 2).
Proof. reflexivity. Qed.

Example store_ex3 : store (mk_table [] 0) (target 7) = None.
Proof. reflexivity. Qed.

Example on_rpc_message_ex1 :
  on_rpc_message quiet (neovim_new (mk_table [empty_handler] 0))
    (msg.array [msg.integer 2; msg.string "x"; msg.array []])
  = Some (neovim_new (mk_table [empty_handler] 0),
          [log_unhandled_notification 1 "x" (msg.to_string (msg.array []))]).
Proof. reflexivity. Qed.

Example on_rpc_message_ex2 :
  on_rpc_message quiet (neovim_new (mk_table [empty_handler; target 5] 1))
    (msg.array [msg.integer 1; msg.integer 1; msg.null; msg.string "ok"])
  = Some (neovim_new (mk_table [empty_handler; empty_handler] 1),
          [invoke 5 msg.null (msg.string "ok")]).
Proof. reflexivity. Qed.

Example on_rpc_message_ex3 :
  on_rpc_message quiet (neovim_new (mk_table [empty_handler; target 5] 1))
    (msg.array [msg.integer 1; msg.integer (-1); msg.null; msg.string "ok"])
  = Some (neovim_new (mk_table [empty_handler; target 5] 1),
          [log_no_response_handler 18446744073709551615
             (msg.to_string (msg.array [msg.integer 1; msg.integer (-1);
                                        msg.null; msg.string "ok"]))]).
Proof. reflexivity. Qed.

(** A handler that asks again: with a vacant slot the new handler takes
    it and the slot of the handler called is cleared; on a full table the
    vector is resized under the running handler. *)
Example on_rpc_message_ex4 :
  on_rpc_message (reentrant 5 (target 6))
    (create_sources (neovim_new (mk_table [empty_handler; target 5] 1))).2
    (msg.array [msg.integer 1; msg.integer 1; msg.null; msg.string "ok"])
  = Some (mk_neovim true (Some (mk_source 0 false)) (Some (mk_source 0 false))
            (-1) (-1) (mk_table [target 6; empty_handler] 0)
            (request_bytes 0 "nvim_get_api_info" []),
          [invoke 5 msg.null (msg.string "ok"); dispatch_resume writer]).
Proof. reflexivity. Qed.

Example on_rpc_message_ex5 :
  on_rpc_message (reentrant 0 (target 1))
    (create_sources (neovim_new (mk_table [target 0] 0))).2
    (msg.array [msg.integer 1; msg.integer 0; msg.null; msg.string "ok"])
  = None.
Proof. reflexivity. Qed.

Example quit_ex :
  exists s' , quit (snd (create_sources (neovim_new (mk_table [empty_handler] 0)))) true
              = finished (s', [dispatch_resume writer])
              /\ length (packer s') = 24%nat
              /\ write_source s' = Some (mk_source 0 false).
Proof. eexists. split; [reflexivity|]. split; reflexivity. Qed.

(** ** The handler table *)

Lemma scan_returned hs n : forall i k,
  scan hs i n = returned k ->
  (i <= k < i + n)%nat /\ vacant hs k /\
  forall j, (i <= j < k)%nat -> occupied hs j.
Proof.
  induction n as [|n IH]; intros i k H; simpl in H; [discriminate|].
  destruct (hs !! i) as [h|] eqn:Hi; [|discriminate].
  destruct h as [|k0]; simpl in H.
  - injection H as <-. split_and!; [lia|lia|exact Hi|intros j Hj; lia].
  - apply IH in H as (Hr & Hk & Hocc). split_and!; [lia|lia|exact Hk|].
    intros j Hj. destruct (decide (j = i)) as [->|Hne]; [by exists k0|].
    apply Hocc; lia.
Qed.

Lemma scan_fell_through hs n : forall i,
  scan hs i n = fell_through ->
  forall j, (i <= j < i + n)%nat -> occupied hs j.
Proof.
  induction n as [|n IH]; intros i H j Hj; [lia|]. simpl in H.
  destruct (hs !! i) as [h|] eqn:Hi; [|discriminate].
  destruct h as [|k0]; simpl in H; [discriminate|].
  destruct (decide (j = i)) as [->|Hne]; [by exists k0|].
  apply (IH (S i)); [exact H|lia].
Qed.

Lemma scan_in_range hs n : forall i,
  (i + n <= length hs)%nat -> scan hs i n <> out_of_range.
Proof.
  induction n as [|n IH]; intros i Hle; simpl; [discriminate|].
  destruct (lookup_lt_is_Some_2 hs i) as [h Hh]; [lia|]. rewrite Hh.
  destruct (callable h); [apply IH; lia|discriminate].
Qed.

Lemma find_empty_choice t :
  table_ok t -> exists i, find_empty t = Some i /\ round_robin_choice t i.
Proof.
  unfold table_ok, find_empty, round_robin_choice. intros Hok.
  set (hs := handlers t) in *. set (last := last_index t) in *.
  destruct (scan hs (last + 1) (length hs - (last + 1))) as [i| |] eqn:H1.
  - exists i. split; [done|]. left.
    apply scan_returned in H1 as (Hr & Hv & Hocc).
    split_and!; [lia|lia|exact Hv|]. intros j Hj. apply Hocc. lia.
  - pose proof (scan_fell_through _ _ _ H1) as Hafter.
    assert (Hafter' : forall j, (last < j < length hs)%nat -> occupied hs j)
      by (intros j Hj; apply Hafter; lia).
    destruct (scan hs 0 (last + 1)) as [i| |] eqn:H2.
    + exists i. split; [done|]. right; left.
      apply scan_returned in H2 as (Hr & Hv & Hocc).
      split_and!; [lia|exact Hv|exact Hafter'|].
      intros j Hj. apply Hocc. lia.
    + exists (length hs). split; [done|]. right; right. split; [done|].
      intros j Hj. destruct (decide (j <= last)%nat).
      * apply (scan_fell_through _ _ _ H2). lia.
      * apply Hafter'. lia.
    + exfalso. revert H2. apply scan_in_range. lia.
  - exfalso. revert H1. apply scan_in_range. lia.
Qed.

Lemma round_robin_choice_bound t i :
  round_robin_choice t i -> (i <= length (handlers t))%nat.
Proof.
  unfold round_robin_choice, vacant.
  intros [[H _]|[(_ & Hv & _)|[H _]]]; [lia| |lia].
  apply lookup_lt_Some in Hv. lia.
Qed.

Lemma round_robin_choice_free t i :
  round_robin_choice t i -> ~ occupied (handlers t) i.
Proof.
  unfold vacant. intros [(_ & Hv & _)|[(_ & Hv & _)|(-> & _)]] [k Hk].
  - rewrite Hv in Hk. discriminate.
  - rewrite Hv in Hk. discriminate.
  - apply lookup_lt_Some in Hk. lia.
Qed.

(** The table [store] leaves behind, written out. *)
Lemma store_eq t h :
  table_ok t ->
  exists i, round_robin_choice t i /\
    (i < length (if (i =? length (handlers t))%nat
                 then resize (length (handlers t) * 2) empty_handler (handlers t)
                 else handlers t))%nat /\
    store t h =
      Some (to_uint32 (Z.of_nat i),
            mk_table (<[i := h]>
                        (if (i =? length (handlers t))%nat
                         then resize (length (handlers t) * 2) empty_handler
                                     (handlers t)
                         else handlers t)) i).
Proof.
  intros Hok. destruct (find_empty_choice t Hok) as (i & Hfind & Hch).
  exists i. split; [exact Hch|]. unfold store. rewrite Hfind.
  unfold table_ok in Hok. pose proof (round_robin_choice_bound _ _ Hch) as Hb.
  destruct (Nat.eqb_spec i (length (handlers t))) as [->|Hne]; cbn zeta.
  - rewrite length_resize.
    assert (Hlt : (length (handlers t) < length (handlers t) * 2)%nat) by lia.
    split; [exact Hlt|]. apply Nat.ltb_lt in Hlt. rewrite Hlt. reflexivity.
  - assert (Hlt : (i < length (handlers t))%nat) by lia.
    split; [exact Hlt|]. apply Nat.ltb_lt in Hlt. rewrite Hlt. reflexivity.
Qed.

(** What one [store] does to the table. *)
Lemma store_spec t h :
  table_ok t ->
  exists i t', store t h = Some (to_uint32 (Z.of_nat i), t') /\
    round_robin_choice t i /\
    last_index t' = i /\ table_ok t' /\
    handlers t' !! i = Some h /\
    (length (handlers t) <= length (handlers t'))%nat /\
    (i = length (handlers t) ->
     length (handlers t') = (length (handlers t) * 2)%nat) /\
    (i <> length (handlers t) -> length (handlers t') = length (handlers t)) /\
    (forall j, j <> i -> (j < length (handlers t))%nat ->
               handlers t' !! j = handlers t !! j) /\
    (forall j, j <> i -> (length (handlers t) <= j < length (handlers t'))%nat ->
               handlers t' !! j = Some empty_handler).
Proof.
  intros Hok. destruct (store_eq t h Hok) as (i & Hch & Hlt & Heq).
  exists i. eexists. split; [exact Heq|]. cbn [handlers last_index].
  unfold table_ok. cbn [handlers last_index]. rewrite length_insert.
  split_and!; try done.
  - by apply list_lookup_insert_eq.
  - destruct (i =? length (handlers t))%nat; [rewrite length_resize|]; lia.
  - intros ->. rewrite Nat.eqb_refl, length_resize. reflexivity.
  - intros Hne. apply Nat.eqb_neq in Hne. rewrite Hne. reflexivity.
  - intros j Hj Hjlt. rewrite list_lookup_insert_ne by done.
    destruct (i =? length (handlers t))%nat; [|done].
    rewrite lookup_resize by lia. reflexivity.
  - intros j Hj Hjr. rewrite list_lookup_insert_ne by done.
    destruct (i =? length (handlers t))%nat eqn:E.
    + rewrite length_resize in Hjr. rewrite lookup_resize_new by lia. reflexivity.
    + lia.
Qed.

Lemma to_uint32_small n : 0 <= n < 2 ^ 32 -> to_uint32 n = n.
Proof. intros H. unfold to_uint32. apply Z.mod_small. exact H. Qed.

(** The slots a run of [store] calls assigns to callable handlers: each was
    free before the run and is occupied after it, so no slot is assigned
    twice. *)
Lemma store_all_indices hs : forall t,
  table_ok t -> Forall (fun h => callable h = true) hs ->
  exists idxs t',
    store_all t hs = Some ((fun i => to_uint32 (Z.of_nat i)) <$> idxs, t') /\
    length idxs = length hs /\ table_ok t' /\
    (length (handlers t) <= length (handlers t'))%nat /\
    NoDup idxs /\
    (forall i, i ∈ idxs ->
       (i < length (handlers t'))%nat /\ ~ occupied (handlers t) i /\
       occupied (handlers t') i) /\
    (forall j, occupied (handlers t) j -> occupied (handlers t') j).
Proof.
  induction hs as [|h rest IH]; intros t Hok Hall.
  - exists [], t. split_and!; try done; [constructor|]. intros i Hi. inversion Hi.
  - inversion Hall as [|h' rest' Hh Hrest]; subst h' rest'.
    destruct (store_spec t h Hok)
      as (i & t1 & Hst & Hch & _ & Hok1 & Hat & Hlen & _ & _ & Hsame & _).
    destruct (IH t1 Hok1 Hrest)
      as (idxs & t' & Hall' & Hlen' & Hok' & Hle' & Hnd & Hidx & Hkeep).
    assert (Hocc1 : occupied (handlers t1) i).
    { destruct h as [|k]; [discriminate|]. by exists k. }
    assert (Hfree : ~ occupied (handlers t) i)
      by (by apply round_robin_choice_free).
    assert (Hkeep1 : forall j, occupied (handlers t) j -> occupied (handlers t1) j).
    { intros j [k Hk]. assert (j <> i) by (intros ->; apply Hfree; by exists k).
      exists k. rewrite Hsame; [done|done|]. by apply lookup_lt_Some in Hk. }
    exists (i :: idxs), t'. cbn [store_all]. rewrite Hst, Hall'.
    split_and!; try done.
    + cbn. by rewrite Hlen'.
    + lia.
    + apply NoDup_cons_2; [|done].
      intros Hin. destruct (Hidx _ Hin) as (_ & Hn & _). by apply Hn.
    + intros x Hx. apply elem_of_cons in Hx as [->|Hx].
      * split_and!; [|done|by apply Hkeep].
        destruct (Hkeep _ Hocc1) as [k Hk]. by apply lookup_lt_Some in Hk.
      * destruct (Hidx _ Hx) as (Hlt & Hn & Ho). split_and!; [done| |done].
        intros Hc. apply Hn. by apply Hkeep1.
    + intros j Hj. by apply Hkeep, Hkeep1.
Qed.

Lemma full_choice t i :
  round_robin_choice t i -> full t -> i = length (handlers t).
Proof.
  unfold round_robin_choice, full, vacant.
  intros [(Hr & Hv & _)|[(_ & Hv & _)|(-> & _)]] Hfull; [| |done].
  - destruct (Hfull i) as [k Hk]; [lia|]. rewrite Hv in Hk. discriminate.
  - destruct (Hfull i) as [k Hk]; [by apply lookup_lt_Some in Hv|].
    rewrite Hv in Hk. discriminate.
Qed.

Lemma choice_full t i :
  round_robin_choice t i -> i = length (handlers t) -> full t.
Proof.
  unfold round_robin_choice, full, vacant.
  intros [(Hr & _)|[(_ & Hv & _)|(_ & Hfull)]] E; [lia| |done].
  apply lookup_lt_Some in Hv. lia.
Qed.

(** C3 (as amended).  On a table whose last index is in range, [store]
    allocates round-robin: it puts the handler in the first vacant slot after
    the last index assigned, else in the first vacant slot from the start,
    and remembers that index; when every slot is occupied it doubles the
    table and uses the first new slot.  The index is always in bounds of the
    table it leaves, and it is the id returned as long as it fits 32 bits.
    The ids returned by consecutive calls that store callable handlers are
    pairwise distinct (as long as the table stays within 2^32 slots). *)
Theorem store_round_robin t :
  table_ok t ->
  (forall h, exists i t',
      store t h = Some (to_uint32 (Z.of_nat i), t') /\
      round_robin_choice t i /\
      last_index t' = i /\
      (i < length (handlers t'))%nat /\
      0 <= to_uint32 (Z.of_nat i) < Z.of_nat (length (handlers t')) /\
      (Z.of_nat (length (handlers t)) < 2 ^ 32 ->
       to_uint32 (Z.of_nat i) = Z.of_nat i) /\
      (full t -> i = length (handlers t) /\
                 length (handlers t') = (2 * length (handlers t))%nat) /\
      (~ full t -> length (handlers t') = length (handlers t)))
  /\
  (forall hs, Forall (fun h => callable h = true) hs ->
     exists ids t',
       store_all t hs = Some (ids, t') /\
       length ids = length hs /\
       (Z.of_nat (length (handlers t')) <= 2 ^ 32 -> NoDup ids)).
Proof.
  intros Hok. split.
  - intros h.
    destruct (store_spec t h Hok)
      as (i & t' & Hst & Hch & Hlast & Hok' & Hat & Hlen & Hgrow & Hsame & _).
    apply lookup_lt_Some in Hat.
    exists i, t'. split_and!; try done.
    + unfold to_uint32. apply Z.mod_pos_bound. lia.
    + unfold to_uint32. pose proof (Z.mod_le (Z.of_nat i) (2 ^ 32)). lia.
    + intros Hfit. apply to_uint32_small.
      pose proof (round_robin_choice_bound _ _ Hch). lia.
    + intros Hfull. pose proof (full_choice _ _ Hch Hfull) as E.
      split; [done|]. rewrite (Hgrow E). lia.
    + intros Hnf. apply Hsame. intros E. apply Hnf. by apply (choice_full _ i).
  - intros hs Hall.
    destruct (store_all_indices hs t Hok Hall)
      as (idxs & t' & Hst & Hlen & _ & _ & Hnd & Hidx & _).
    eexists _, t'. split; [exact Hst|]. split; [by rewrite length_fmap|].
    intros Hfit. apply NoDup_fmap_2_strong; [|done].
    intros x y Hx Hy. destruct (Hidx _ Hx) as (Hxl & _), (Hidx _ Hy) as (Hyl & _).
    rewrite !to_uint32_small by lia. lia.
Qed.

Lemma store_round_robin_witness :
  table_ok (mk_table [target 4; empty_handler] 0) /\
  (exists i t',
      store (mk_table [target 4; empty_handler] 0) (target 5)
        = Some (to_uint32 (Z.of_nat i), t') /\
      round_robin_choice (mk_table [target 4; empty_handler] 0) i /\
      (i < length (handlers t'))%nat) /\
  (exists ids t',
      store_all (mk_table [target 4; empty_handler] 0) [target 5; target 6; target 7]
        = Some (ids, t') /\
      NoDup ids).
Proof.
  assert (Hok : table_ok (mk_table [target 4; empty_handler] 0))
    by by_computation.
  split; [exact Hok|].
  destruct (store_round_robin _ Hok) as [H1 H2]. split.
  - destruct (H1 (target 5)) as (i & t' & Hst & Hch & _ & Hlt & _).
    exists i, t'. split; [exact Hst|]. split; [exact Hch|exact Hlt].
  - destruct (H2 [target 5; target 6; target 7]) as (ids & t' & Hst & _ & Hnd).
    + repeat constructor.
    + exists ids, t'. split; [exact Hst|]. apply Hnd.
      vm_compute in Hst. injection Hst as _ <-. vm_compute. discriminate.
Defined.

(** The ids of consecutive [store] calls are not distinct when the handlers
    stored are empty: the slot stays free and is handed out again. *)
Lemma store_all_empty_repeats :
  table_ok (mk_table [empty_handler; target 0] 1) /\
  store_all (mk_table [empty_handler; target 0] 1) [empty_handler; empty_handler]
    = Some ([0; 0], mk_table [empty_handler; target 0] 0) /\
  ~ NoDup [0; 0].
Proof.
  split; [by_computation|]. split; [reflexivity|].
  intros H. apply NoDup_cons_1_1 in H. apply H. left.
Qed.


(** ** What [store] does to the handlers in the table *)

Lemma pending_app a b : pending (a ++ b) = (pending a + pending b)%nat.
Proof.
  induction a as [|h a IH]; cbn [app pending]; [done|]. rewrite IH. lia.
Qed.

Lemma pending_replicate_empty n : pending (replicate n empty_handler) = 0%nat.
Proof. induction n as [|n IH]; cbn; [done|]. exact IH. Qed.

Lemma pending_insert hs : forall i h0 h,
  hs !! i = Some h0 ->
  (pending (<[i := h]> hs) + (if callable h0 then 1 else 0)
   = pending hs + (if callable h then 1 else 0))%nat.
Proof.
  induction hs as [|x hs IH]; intros i h0 h Hi; [discriminate|].
  destruct i as [|i].
  - injection Hi as ->.
    change (<[0%nat := h]> (h0 :: hs)) with (h :: hs). cbn [pending].
    destruct (callable h0), (callable h); lia.
  - change (<[S i := h]> (x :: hs)) with (x :: <[i := h]> hs). cbn [pending].
    generalize (IH i h0 h Hi).
    destruct (callable x), (callable h0), (callable h); lia.
Qed.

Lemma find_empty_some t i :
  find_empty t = Some i ->
  vacant (handlers t) i \/ i = length (handlers t).
Proof.
  unfold find_empty.
  destruct (scan (handlers t) (last_index t + 1)
              (length (handlers t) - (last_index t + 1))) as [i1| |] eqn:H1;
    [| |discriminate].
  - intros [= <-]. left. by apply scan_returned in H1 as (_ & Hv & _).
  - destruct (scan (handlers t) 0 (last_index t + 1)) as [i2| |] eqn:H2;
      [| |discriminate].
    + intros [= <-]. left. by apply scan_returned in H2 as (_ & Hv & _).
    + intros [= <-]. by right.
Qed.

(** Every successful [store], on any table: the handler goes to a vacant
    slot of the table, or to the first of as many new vacant slots as the
    table had. *)
Lemma store_some t h id t' :
  store t h = Some (id, t') ->
  exists i grown,
    id = to_uint32 (Z.of_nat i) /\
    t' = mk_table (<[i := h]> (handlers t ++ replicate grown empty_handler)) i /\
    (handlers t ++ replicate grown empty_handler) !! i = Some empty_handler /\
    (vacant (handlers t) i /\ grown = 0%nat
     \/ i = length (handlers t) /\ grown = length (handlers t)).
Proof.
  unfold store. destruct (find_empty t) as [i|] eqn:Hfind; [|discriminate].
  cbn zeta. apply find_empty_some in Hfind.
  destruct (Nat.eqb_spec i (length (handlers t))) as [->|Hne].
  - rewrite length_resize.
    destruct (Nat.ltb_spec (length (handlers t)) (length (handlers t) * 2)) as [Hlt|];
      [|discriminate].
    intros [= <- <-]. exists (length (handlers t)), (length (handlers t)).
    rewrite resize_ge by lia.
    replace (length (handlers t) * 2 - length (handlers t))%nat
      with (length (handlers t)) by lia.
    split_and!; [done|done| |by right].
    rewrite lookup_app_r by lia. apply lookup_replicate_2. lia.
  - destruct Hfind as [Hv|]; [|done].
    destruct (Nat.ltb_spec i (length (handlers t))); [|discriminate].
    intros [= <- <-]. exists i, 0%nat. cbn [replicate]. rewrite app_nil_r.
    split_and!; [done|done|done|by left].
Qed.

(** The handlers that wait are kept by [store], and counted. *)
Lemma store_pending t h id t' :
  store t h = Some (id, t') ->
  (forall j k, handlers t !! j = Some (target k) ->
               handlers t' !! j = Some (target k))
  /\ pending (handlers t')
     = (pending (handlers t) + (if callable h then 1 else 0))%nat.
Proof.
  intros Hst. destruct (store_some _ _ _ _ Hst) as (i & grown & _ & -> & Hi & Hcase).
  cbn [handlers]. split.
  - intros j k Hj. pose proof (lookup_lt_Some _ _ _ Hj) as Hlt.
    assert (j <> i).
    { intros ->. rewrite lookup_app_l in Hi by done. rewrite Hi in Hj. discriminate. }
    rewrite list_lookup_insert_ne by done. by rewrite lookup_app_l.
  - pose proof (pending_insert _ i empty_handler h Hi) as Hp. cbn [callable] in Hp.
    rewrite pending_app, pending_replicate_empty in Hp. lia.
Qed.

(** ** Requests *)

Lemma request_bytes_nonempty (p : list byte) msgid method (args : list rpc_arg) :
  p ++ start_array 4 ++ pack_uint64 0 ++ pack_uint64 msgid ++ pack_string method
    ++ start_array (length args) ++ concat (map pack args) <> [].
Proof.
  intros H. apply (f_equal length) in H. rewrite !length_app in H.
  assert (Hhead : length (start_array 4) = 1%nat) by reflexivity.
  rewrite Hhead in H. cbn [length] in H. lia.
Qed.

Lemma rpc_request_idle s msgid method args d :
  write_source s = Some d -> packer s = [] ->
  exists s', rpc_request s msgid method args
             = finished (s', [dispatch_resume writer])
    /\ write_source s' = Some (resumed d) /\ packer s' <> [].
Proof.
  intros Hd Hp. unfold rpc_request. rewrite Hp, Hd. cbn [length Nat.eqb].
  eexists. split; [reflexivity|]. split; [reflexivity|].
  cbn [packer with_write_source with_packer]. apply request_bytes_nonempty.
Qed.

Lemma rpc_request_busy s msgid method args :
  packer s <> [] ->
  exists s', rpc_request s msgid method args = finished (s', [])
    /\ write_source s' = write_source s /\ packer s' <> [].
Proof.
  intros Hp. unfold rpc_request.
  destruct (packer s) as [|b p] eqn:E; [done|]. cbn [length Nat.eqb].
  eexists. split; [reflexivity|]. split; [reflexivity|].
  cbn [packer with_packer]. apply request_bytes_nonempty.
Qed.

Lemma rpc_request_appends s msgid method args d :
  write_source s = Some d ->
  exists s' evs d',
    rpc_request s msgid method args = finished (s', evs) /\
    packer s' = packer s ++ request_bytes msgid method args /\
    write_source s' = Some d' /\
    handler_table s' = handler_table s /\
    read_fd s' = read_fd s /\ write_fd s' = write_fd s.
Proof.
  intros Hd. unfold rpc_request, request_bytes. rewrite Hd.
  destruct (length (packer s) =? 0)%nat; eexists _, _, _;
    (split; [reflexivity|]); cbn; split_and!; try done.
Qed.

(** What a request that returns has done, whatever the session. *)
Lemma rpc_request_inv s msgid method args s' evs :
  rpc_request s msgid method args = finished (s', evs) ->
  handler_table s' = handler_table s /\
  packer s' = packer s ++ request_bytes msgid method args /\
  read_fd s' = read_fd s /\ write_fd s' = write_fd s /\
  queue s' = queue s /\ read_source s' = read_source s /\
  invocations evs = 0%nat /\
  (forall d, write_source s = Some d ->
     exists d', write_source s' = Some d' /\ cancelled d' = cancelled d).
Proof.
  unfold rpc_request, request_bytes.
  destruct (length (packer s) =? 0)%nat.
  - destruct (write_source s) as [d|] eqn:Hd; [|discriminate].
    intros [= <- <-]. cbn. split_and!; try done.
    intros d' [= <-]. by eexists.
  - intros [= <- <-]. cbn. split_and!; try done. intros d Hd. by exists d.
Qed.

(** ** The calls of a handler *)

(** Every call a handler can make is a request, [get_api_info] after it
    has stored the handler. *)
Lemma api_is_request s c s' evs :
  api s c = finished (s', evs) ->
  (stores_in [c] = 0%nat /\
   exists msgid method args,
     rpc_request s msgid method args = finished (s', evs))
  \/
  (exists h id t,
     c = call_get_api_info h /\
     store (handler_table s) h = Some (id, t) /\
     rpc_request (with_handler_table s t) id "nvim_get_api_info" []
       = finished (s', evs)).
Proof.
  destruct c as [h|confirm|width height]; cbn [api].
  - unfold get_api_info.
    destruct (store (handler_table s) h) as [[id t]|] eqn:Hst; [|discriminate].
    intros Hreq. right. by exists h, id, t.
  - unfold quit. intros Hreq. left. split; [done|]. by eexists _, _, _.
  - unfold ui_attach. intros Hreq. left. split; [done|]. by eexists _, _, _.
Qed.

Lemma vacancies_pending hs : (vacancies hs + pending hs = length hs)%nat.
Proof.
  induction hs as [|h hs IH]; [done|]. cbn [vacancies pending length].
  destruct (callable h); lia.
Qed.

Lemma pending_full hs :
  (forall j, (j < length hs)%nat -> occupied hs j) -> pending hs = length hs.
Proof.
  induction hs as [|h hs IH]; intros Hfull; [done|]. cbn [pending length].
  destruct (Hfull 0%nat) as [k Hk]; [cbn; lia|]. injection Hk as ->.
  cbn [callable]. rewrite IH; [done|].
  intros j Hj. destruct (Hfull (S j)) as [k' Hk']; [cbn; lia|]. by exists k'.
Qed.

(** A [store] into a table with a vacant slot does not resize it. *)
Lemma store_in_place t h :
  table_ok t -> (0 < vacancies (handlers t))%nat ->
  exists id t',
    store t h = Some (id, t') /\ table_ok t' /\
    length (handlers t') = length (handlers t) /\
    (vacancies (handlers t) <= S (vacancies (handlers t')))%nat /\
    (forall j k, handlers t !! j = Some (target k) ->
                 handlers t' !! j = Some (target k)).
Proof.
  intros Hok Hvac.
  destruct (store_spec t h Hok)
    as (i & t' & Hst & Hch & _ & Hok' & _ & _ & _ & Hsame & _).
  assert (Hne : i <> length (handlers t)).
  { intros E. pose proof (choice_full _ _ Hch E) as Hfull.
    apply pending_full in Hfull. pose proof (vacancies_pending (handlers t)). lia. }
  destruct (store_pending _ _ _ _ Hst) as [Hkeep Hpend].
  exists (to_uint32 (Z.of_nat i)), t'. split_and!; try done; [by apply Hsame|].
  pose proof (vacancies_pending (handlers t)).
  pose proof (vacancies_pending (handlers t')). rewrite (Hsame Hne) in *.
  destruct (callable h); lia.
Qed.

Lemma invocations_app a b :
  invocations (a ++ b) = (invocations a + invocations b)%nat.
Proof.
  induction a as [|e a IH]; [done|]. destruct e; cbn; rewrite ?IH; lia.
Qed.

(** The calls of a handler on a connected session whose table has a vacant
    slot for every handler they store: they all return, the table keeps
    its size and the handlers it held, and what was queued stays in front
    of what they queue. *)
Lemma run_calls_in_place cs : forall s d,
  write_source s = Some d ->
  table_ok (handler_table s) ->
  (stores_in cs <= vacancies (handlers (handler_table s)))%nat ->
  exists s' evs d',
    run_calls s cs = finished (s', evs) /\
    write_source s' = Some d' /\
    table_ok (handler_table s') /\
    length (handlers (handler_table s')) = length (handlers (handler_table s)) /\
    (forall j k, handlers (handler_table s) !! j = Some (target k) ->
                 handlers (handler_table s') !! j = Some (target k)) /\
    invocations evs = 0%nat /\
    (exists queued, packer s' = packer s ++ queued).
Proof.
  induction cs as [|c cs IH]; intros s d Hd Hok Hfit; cbn [run_calls].
  - exists s, [], d. split_and!; try done. exists []. by rewrite app_nil_r.
  - assert (Hstep : exists s1 evs1 d1,
      api s c = finished (s1, evs1) /\ write_source s1 = Some d1 /\
      table_ok (handler_table s1) /\
      length (handlers (handler_table s1)) = length (handlers (handler_table s)) /\
      (forall j k, handlers (handler_table s) !! j = Some (target k) ->
                   handlers (handler_table s1) !! j = Some (target k)) /\
      invocations evs1 = 0%nat /\
      (exists queued, packer s1 = packer s ++ queued) /\
      (stores_in cs <= vacancies (handlers (handler_table s1)))%nat).
    { destruct c as [h|confirm|width height]; cbn [api stores_in] in *.
      - destruct (store_in_place (handler_table s) h Hok)
          as (id & t1 & Hst & Hok1 & Hlen & Hvac & Hkeep); [lia|].
        unfold get_api_info. rewrite Hst.
        destruct (rpc_request_appends (with_handler_table s t1) id
                    "nvim_get_api_info" [] d Hd)
          as (s1 & evs1 & d1 & Hreq & Hp & Hd1 & Htab & _).
        destruct (rpc_request_inv _ _ _ _ _ _ Hreq) as (_ & _ & _ & _ & _ & _ & Hinv & _).
        exists s1, evs1, d1. rewrite Htab. cbn [handler_table with_handler_table].
        split_and!; try done; [by eexists|lia].
      - unfold quit.
        destruct (rpc_request_appends s null_msgid "nvim_command"
                    [arg_string (if confirm then "qa" else "qa!")] d Hd)
          as (s1 & evs1 & d1 & Hreq & Hp & Hd1 & Htab & _).
        destruct (rpc_request_inv _ _ _ _ _ _ Hreq) as (_ & _ & _ & _ & _ & _ & Hinv & _).
        exists s1, evs1, d1. rewrite Htab. split_and!; try done. by eexists.
      - unfold ui_attach.
        destruct (rpc_request_appends s null_msgid "nvim_ui_attach"
                    [arg_int width; arg_int height;
                     arg_options [("ext_linegrid"%string, true)]] d Hd)
          as (s1 & evs1 & d1 & Hreq & Hp & Hd1 & Htab & _).
        destruct (rpc_request_inv _ _ _ _ _ _ Hreq) as (_ & _ & _ & _ & _ & _ & Hinv & _).
        exists s1, evs1, d1. rewrite Htab. split_and!; try done. by eexists. }
    destruct Hstep as (s1 & evs1 & d1 & Hapi & Hd1 & Hok1 & Hlen1 & Hkeep1
                       & Hinv1 & [q1 Hq1] & Hfit1).
    destruct (IH s1 d1 Hd1 Hok1 Hfit1)
      as (s' & evs & d' & Hrun & Hd' & Hok' & Hlen' & Hkeep' & Hinv' & [q Hq]).
    rewrite Hapi, Hrun. exists s', (evs1 ++ evs), d'.
    rewrite invocations_app, Hinv1, Hinv'.
    split_and!; try done; [lia|by intros j k Hj; apply Hkeep', Hkeep1|].
    exists (q1 ++ q). by rewrite Hq, Hq1, app_assoc.
Qed.

(** The calls of a handler that stores nothing leave the table alone. *)
Lemma run_calls_no_store cs : forall s d,
  write_source s = Some d -> stores_in cs = 0%nat ->
  exists s' evs d',
    run_calls s cs = finished (s', evs) /\
    write_source s' = Some d' /\
    handler_table s' = handler_table s /\
    invocations evs = 0%nat /\
    (exists queued, packer s' = packer s ++ queued).
Proof.
  induction cs as [|c cs IH]; intros s d Hd Hnone; cbn [run_calls].
  - exists s, [], d. split_and!; try done. exists []. by rewrite app_nil_r.
  - assert (Hstep : exists s1 evs1 d1,
      api s c = finished (s1, evs1) /\ write_source s1 = Some d1 /\
      handler_table s1 = handler_table s /\ invocations evs1 = 0%nat /\
      (exists queued, packer s1 = packer s ++ queued) /\ stores_in cs = 0%nat).
    { destruct c as [h|confirm|width height]; cbn [api stores_in] in *;
        [discriminate| |].
      - unfold quit.
        destruct (rpc_request_appends s null_msgid "nvim_command"
                    [arg_string (if confirm then "qa" else "qa!")] d Hd)
          as (s1 & evs1 & d1 & Hreq & Hp & Hd1 & Htab & _).
        destruct (rpc_request_inv _ _ _ _ _ _ Hreq) as (_ & _ & _ & _ & _ & _ & Hinv & _).
        exists s1, evs1, d1. split_and!; try done. by eexists.
      - unfold ui_attach.
        destruct (rpc_request_appends s null_msgid "nvim_ui_attach"
                    [arg_int width; arg_int height;
                     arg_options [("ext_linegrid"%string, true)]] d Hd)
          as (s1 & evs1 & d1 & Hreq & Hp & Hd1 & Htab & _).
        destruct (rpc_request_inv _ _ _ _ _ _ Hreq) as (_ & _ & _ & _ & _ & _ & Hinv & _).
        exists s1, evs1, d1. split_and!; try done. by eexists. }
    destruct Hstep as (s1 & evs1 & d1 & Hapi & Hd1 & Htab1 & Hinv1 & [q1 Hq1] & Hnone1).
    destruct (IH s1 d1 Hd1 Hnone1)
      as (s' & evs & d' & Hrun & Hd' & Htab' & Hinv' & [q Hq]).
    rewrite Hapi, Hrun. exists s', (evs1 ++ evs), d'.
    rewrite invocations_app, Hinv1, Hinv', Htab', Htab1.
    split_and!; try done. exists (q1 ++ q). by rewrite Hq, Hq1, app_assoc.
Qed.

(** ** Classification and routing *)

Lemma is_notification_inv array :
  is_notification array = true ->
  exists name args, array = [msg.integer 2; msg.string name; msg.array args].
Proof.
  destruct array as [|a [|b [|c [|d rest]]]]; try discriminate.
  unfold is_notification, element_is, element_equals. cbn.
  destruct a, b, c; cbn; try discriminate. rewrite Z.eqb_eq. intros ->. eauto.
Qed.

Lemma is_response_inv array :
  is_response array = true ->
  exists id error result, array = response id error result.
Proof.
  destruct array as [|a [|b [|c [|d [|e rest]]]]]; try discriminate.
  unfold is_response, element_is, element_equals, response. cbn.
  destruct a, b; cbn; try discriminate. rewrite Z.eqb_eq. intros ->. eauto.
Qed.

Lemma is_response_response id error result :
  is_response (response id error result) = true
  /\ is_notification (response id error result) = false.
Proof. split; reflexivity. Qed.

Lemma to_size_t_range z : 0 <= to_size_t z < 2 ^ 64.
Proof. unfold to_size_t. apply Z.mod_pos_bound. lia. Qed.

Lemma on_rpc_response_route B s id error result :
  on_rpc_response B s (response id error result)
  = route_response B s (to_size_t id) error result
      (msg.array (response id error result)).
Proof.
  unfold on_rpc_response, route_response, has_handler, get, cleared, response.
  cbn [lookup list_lookup mbind option_bind msg.get_integer].
  destruct (to_size_t id =? null_msgid); [reflexivity|].
  destruct (to_size_t id <? Z.of_nat (length (handlers (handler_table s))));
    [|reflexivity].
  destruct (handlers (handler_table s) !! Z.to_nat (to_size_t id)) as [[|k]|];
    reflexivity.
Qed.

Lemma on_rpc_message_response B s id error result :
  on_rpc_message B s (msg.array (response id error result))
  = route_response B s (to_size_t id) error result
      (msg.array (response id error result)).
Proof. rewrite <- on_rpc_response_route. reflexivity. Qed.

Lemma on_rpc_message_notification B s name args :
  on_rpc_message B s (msg.array [msg.integer 2; msg.string name; msg.array args])
  = Some (s, dispatch_notification name args).
Proof.
  unfold on_rpc_message, dispatch_notification. cbn.
  destruct (String.eqb name "redraw"); reflexivity.
Qed.

Lemma on_rpc_message_other B s obj :
  (forall name args,
      obj <> msg.array [msg.integer 2; msg.string name; msg.array args]) ->
  (forall id error result,
      obj <> msg.array [msg.integer 1; msg.integer id; error; result]) ->
  on_rpc_message B s obj
  = Some (s, [log_message_type_error (msg.type_string obj) (msg.to_string obj)]).
Proof.
  intros Hn Hr. destruct obj as [| | | | | |array| |]; try reflexivity.
  unfold on_rpc_message.
  destruct (is_notification array) eqn:En.
  { apply is_notification_inv in En as (name & args & ->).
    by destruct (Hn name args). }
  destruct (is_response array) eqn:Er; [|reflexivity].
  apply is_response_inv in Er as (id & error & result & ->).
  by destruct (Hr id error result).
Qed.

(** C1.  A decoded array of exactly 3 elements, an integer 2, a string
    and an array, is dispatched as the notification of that name and those
    arguments; a decoded array of exactly 4 elements of which the first is
    the integer 1 and the second an integer is routed as the response of
    that id, error and result; every other decoded value (another length,
    another tag, elements of other types, not an array) is logged with its
    type and its text and dropped: [on_rpc_message] returns and the session
    is as it was. *)
Theorem on_rpc_message_classification B s :
  (forall name args,
      on_rpc_message B s
        (msg.array [msg.integer 2; msg.string name; msg.array args])
      = Some (s, dispatch_notification name args))
  /\
  (forall id error result,
      on_rpc_message B s
        (msg.array [msg.integer 1; msg.integer id; error; result])
      = route_response B s (to_size_t id) error result
          (msg.array [msg.integer 1; msg.integer id; error; result]))
  /\
  (forall obj,
      (forall name args,
          obj <> msg.array [msg.integer 2; msg.string name; msg.array args]) ->
      (forall id error result,
          obj <> msg.array [msg.integer 1; msg.integer id; error; result]) ->
      on_rpc_message B s obj
      = Some (s, [log_message_type_error (msg.type_string obj)
                                         (msg.to_string obj)])).
Proof.
  split_and!.
  - apply on_rpc_message_notification.
  - apply on_rpc_message_response.
  - apply on_rpc_message_other.
Qed.

Lemma on_rpc_message_classification_witness :
  on_rpc_message (reentrant 0 (target 1))
    (neovim_new (mk_table [target 0] 0))
    (msg.array [msg.integer 2; msg.integer 5; msg.integer 6])
  = Some (neovim_new (mk_table [target 0] 0),
          [log_message_type_error
             (msg.type_string (msg.array [msg.integer 2; msg.integer 5; msg.integer 6]))
             (msg.to_string (msg.array [msg.integer 2; msg.integer 5; msg.integer 6]))]).
Proof.
  apply (on_rpc_message_classification (reentrant 0 (target 1))
           (neovim_new (mk_table [target 0] 0)));
    intros; discriminate.
Defined.

Lemma has_handler_occupied t id :
  0 <= id -> has_handler t id = true <-> occupied (handlers t) (Z.to_nat id).
Proof.
  intros Hid. unfold has_handler, occupied. split.
  - destruct (id <? Z.of_nat (length (handlers t))); [|discriminate].
    destruct (handlers t !! Z.to_nat id) as [[|k]|]; try discriminate. eauto.
  - intros [k Hk]. pose proof (lookup_lt_Some _ _ _ Hk) as Hlt.
    destruct (Z.ltb_spec id (Z.of_nat (length (handlers t)))); [|lia].
    rewrite Hk. reflexivity.
Qed.

Lemma has_handler_false t id :
  0 <= id -> has_handler t id = false ->
  Z.of_nat (length (handlers t)) <= id \/ vacant (handlers t) (Z.to_nat id).
Proof.
  intros Hid. unfold has_handler, vacant.
  destruct (Z.ltb_spec id (Z.of_nat (length (handlers t)))) as [Hlt|Hge];
    [|by left].
  destruct (handlers t !! Z.to_nat id) as [[|k]|] eqn:E; try discriminate.
  - by right.
  - apply lookup_ge_None in E. lia.
Qed.

Lemma route_response_unmatched B s msgid error result message :
  msgid <> null_msgid -> has_handler (handler_table s) msgid = false ->
  route_response B s msgid error result message
  = Some (s, [log_no_response_handler msgid (msg.to_string message)]).
Proof.
  intros Hne Hno. unfold route_response, has_handler in *.
  destruct (Z.eqb_spec msgid null_msgid); [done|].
  destruct (msgid <? Z.of_nat (length (handlers (handler_table s)))); [|done].
  destruct (handlers (handler_table s) !! Z.to_nat msgid) as [[|k]|]; done.
Qed.

(** The branch of [on_rpc_response] that calls the handler. *)
Lemma route_response_matched B s msgid k error result message :
  msgid <> null_msgid -> 0 <= msgid ->
  handlers (handler_table s) !! Z.to_nat msgid = Some (target k) ->
  route_response B s msgid error result message
  = match run_calls s (B k error result) with
    | finished (s', evs) =>
        if (length (handlers (handler_table s'))
            =? length (handlers (handler_table s)))%nat
        then Some (with_handler_table s' (cleared (handler_table s') msgid),
                   invoke k error result :: evs)
        else None
    | _ => None
    end.
Proof.
  intros Hne Hpos Hk. pose proof (lookup_lt_Some _ _ _ Hk) as Hlt.
  unfold route_response.
  destruct (Z.eqb_spec msgid null_msgid); [done|].
  destruct (Z.ltb_spec msgid (Z.of_nat (length (handlers (handler_table s)))));
    [|lia].
  by rewrite Hk.
Qed.

Lemma cleared_has_no_handler t msgid :
  0 <= msgid -> has_handler (cleared t msgid) msgid = false.
Proof.
  intros Hpos. unfold has_handler, cleared. cbn [handlers]. rewrite length_insert.
  destruct (Z.ltb_spec msgid (Z.of_nat (length (handlers t)))); [|done].
  rewrite list_lookup_insert_eq by lia. done.
Qed.

(** The handler called makes calls that fit the vacant slots: the
    response is routed, the handler is called once and its slot cleared. *)
Lemma route_response_in_place B s d msgid k error result message :
  msgid <> null_msgid -> 0 <= msgid ->
  handlers (handler_table s) !! Z.to_nat msgid = Some (target k) ->
  write_source s = Some d -> table_ok (handler_table s) ->
  (stores_in (B k error result) <= vacancies (handlers (handler_table s)))%nat ->
  exists s1 evs d1,
    run_calls s (B k error result) = finished (s1, evs) /\
    route_response B s msgid error result message
    = Some (with_handler_table s1 (cleared (handler_table s1) msgid),
            invoke k error result :: evs) /\
    invocations evs = 0%nat /\
    write_source s1 = Some d1 /\
    length (handlers (handler_table s1)) = length (handlers (handler_table s)) /\
    (exists queued, packer s1 = packer s ++ queued).
Proof.
  intros Hne Hpos Hk Hd Hok Hfit.
  destruct (run_calls_in_place (B k error result) s d Hd Hok Hfit)
    as (s1 & evs & d1 & Hrun & Hd1 & _ & Hlen & _ & Hinv & Hq).
  exists s1, evs, d1. split; [done|].
  rewrite (route_response_matched B s msgid k) by done.
  rewrite Hrun, Hlen, Nat.eqb_refl. done.
Qed.

Lemma response_id array id :
  is_response array = true -> array !! 1%nat = Some (msg.integer id) ->
  exists error result, array = response id error result.
Proof.
  intros Hr Hid. apply is_response_inv in Hr as (id' & error & result & ->).
  injection Hid as ->. eauto.
Qed.

(** C4.  A response whose id is the sentinel is dropped without a trace:
    no handler is called, nothing is logged, the session and its table are
    as before. *)
Theorem sentinel_response_ignored B s array id :
  is_response array = true ->
  array !! 1%nat = Some (msg.integer id) ->
  to_size_t id = null_msgid ->
  on_rpc_response B s array = Some (s, [])
  /\ on_rpc_message B s (msg.array array) = Some (s, []).
Proof.
  intros Hr Hid Hnull. destruct (response_id _ _ Hr Hid) as (error & result & ->).
  rewrite on_rpc_message_response, on_rpc_response_route.
  unfold route_response. rewrite Hnull. done.
Qed.

Lemma sentinel_response_ignored_witness :
  on_rpc_response (reentrant 3 (target 4))
    (neovim_new (mk_table [target 3; empty_handler] 0))
    (response 4294967295 msg.null (msg.string "done"))
  = Some (neovim_new (mk_table [target 3; empty_handler] 0), [])
  /\ on_rpc_message (reentrant 3 (target 4))
       (neovim_new (mk_table [target 3; empty_handler] 0))
       (msg.array (response 4294967295 msg.null (msg.string "done")))
     = Some (neovim_new (mk_table [target 3; empty_handler] 0), []).
Proof.
  apply (sentinel_response_ignored _ _ _ 4294967295); reflexivity.
Defined.

(** C9.  A response whose id is not the sentinel and has no handler (the
    id is past the end of the table, or its slot is empty) is logged with
    the id and the text of the message, and that is all: no handler is
    called and the session and its table are as before. *)
Theorem unmatched_response_logged B s array id :
  is_response array = true ->
  array !! 1%nat = Some (msg.integer id) ->
  to_size_t id <> null_msgid ->
  has_handler (handler_table s) (to_size_t id) = false ->
  (Z.of_nat (length (handlers (handler_table s))) <= to_size_t id
   \/ vacant (handlers (handler_table s)) (Z.to_nat (to_size_t id)))
  /\ on_rpc_response B s array
     = Some (s, [log_no_response_handler (to_size_t id)
                   (msg.to_string (msg.array array))])
  /\ on_rpc_message B s (msg.array array)
     = Some (s, [log_no_response_handler (to_size_t id)
                   (msg.to_string (msg.array array))]).
Proof.
  intros Hr Hid Hnull Hno. destruct (response_id _ _ Hr Hid) as (error & result & ->).
  split; [apply has_handler_false; [apply to_size_t_range|done]|].
  rewrite on_rpc_message_response, on_rpc_response_route.
  by rewrite route_response_unmatched.
Qed.

Lemma unmatched_response_logged_witness :
  on_rpc_message (reentrant 3 (target 4))
    (neovim_new (mk_table [target 3; empty_handler] 0))
    (msg.array (response 1 msg.null (msg.string "late")))
  = Some (neovim_new (mk_table [target 3; empty_handler] 0),
          [log_no_response_handler 1
             (msg.to_string (msg.array (response 1 msg.null (msg.string "late"))))]).
Proof.
  apply (unmatched_response_logged (reentrant 3 (target 4))
           (neovim_new (mk_table [target 3; empty_handler] 0))
           (response 1 msg.null (msg.string "late")) 1);
    [reflexivity|reflexivity|discriminate|reflexivity].
Defined.

Lemma id_of_index t i :
  Z.of_nat (length (handlers t)) < null_msgid ->
  (i <= length (handlers t))%nat ->
  to_uint32 (Z.of_nat i) = Z.of_nat i
  /\ to_size_t (Z.of_nat i) = Z.of_nat i
  /\ Z.of_nat i <> null_msgid.
Proof.
  unfold null_msgid, to_uint32, to_size_t. intros Hfit Hle.
  rewrite !Z.mod_small by lia. lia.
Qed.




(** C10.  [store] of an empty handler returns an id of which [has_handler]
    does not hold: the slot it names is vacant.  Later allocations treat it
    as free (the next [store] does not grow the table, and returns the same
    id when no other slot is vacant), and a response with that id is logged
    as unmatched, no handler being called. *)
Theorem store_empty_handler t :
  table_ok t ->
  Z.of_nat (length (handlers t)) < null_msgid ->
  exists id t',
    store t empty_handler = Some (id, t') /\
    has_handler t' id = false /\
    vacant (handlers t') (Z.to_nat id) /\
    (forall h, exists id2 t'',
        store t' h = Some (id2, t'') /\
        length (handlers t'') = length (handlers t') /\
        ((forall j, j <> Z.to_nat id -> (j < length (handlers t'))%nat ->
                    occupied (handlers t') j) -> id2 = id)) /\
    (forall B s error result,
        handler_table s = t' ->
        on_rpc_message B s (msg.array (response id error result))
        = Some (s, [log_no_response_handler id
                      (msg.to_string (msg.array (response id error result)))])).
Proof.
  intros Hok Hfit.
  destruct (store_spec t empty_handler Hok)
    as (i & t' & Hst & Hch & Hlast & Hok' & Hat & _).
  destruct (id_of_index t i Hfit (round_robin_choice_bound _ _ Hch))
    as (E32 & E64 & Hnull).
  rewrite E32 in Hst. exists (Z.of_nat i), t'. split; [exact Hst|].
  rewrite Nat2Z.id.
  assert (Hno : has_handler t' (Z.of_nat i) = false).
  { destruct (has_handler t' (Z.of_nat i)) eqn:E; [|done].
    apply has_handler_occupied in E as [k Hk]; [|lia].
    rewrite Nat2Z.id, Hat in Hk. discriminate. }
  split_and!; [done|done| |].
  - intros h.
    destruct (store_spec t' h Hok')
      as (i2 & t'' & Hst2 & Hch2 & _ & _ & _ & _ & _ & Hsame & _).
    assert (Hnotfull : i2 <> length (handlers t')).
    { intros E. pose proof (choice_full _ _ Hch2 E) as Hfull.
      destruct (Hfull i) as [k Hk]; [by apply lookup_lt_Some in Hat|].
      rewrite Hat in Hk. discriminate. }
    exists (to_uint32 (Z.of_nat i2)), t''. split_and!; [done|by apply Hsame|].
    intros Hothers. f_equal.
    destruct (decide (i2 = i)) as [->|Hne]; [by rewrite E32|]. exfalso.
    assert (Hlt : (i2 < length (handlers t'))%nat)
      by (pose proof (round_robin_choice_bound _ _ Hch2); lia).
    apply (round_robin_choice_free _ _ Hch2). by apply Hothers.
  - intros B s error result <-. rewrite on_rpc_message_response, E64.
    by rewrite route_response_unmatched.
Qed.

Lemma store_empty_handler_witness :
  exists id t',
    store (mk_table [target 1; empty_handler] 0) empty_handler = Some (id, t') /\
    has_handler t' id = false /\
    on_rpc_message (reentrant 1 (target 2)) (neovim_new t')
      (msg.array (response id msg.null msg.null))
    = Some (neovim_new t',
            [log_no_response_handler id
               (msg.to_string (msg.array (response id msg.null msg.null)))]).
Proof.
  destruct (store_empty_handler (mk_table [target 1; empty_handler] 0))
    as (id & t' & Hst & Hno & _ & _ & Hlog).
  - by_computation.
  - by_computation.
  - exists id, t'. split; [exact Hst|]. split; [exact Hno|]. by apply Hlog.
Defined.

(** ** Setting up the transport *)

Lemma connect_rejected s addr sa ca w :
  exceeds_path_limit addr -> connect s addr sa ca w = (EINVAL, s, w).
Proof.
  unfold exceeds_path_limit, connect. intros H.
  destruct (Nat.leb_spec sun_path_size (String.length addr)); [done|lia].
Qed.

Lemma connect_attempted s addr sa ca w :
  ~ exceeds_path_limit addr ->
  match sa with
  | fails e =>
      connect s addr sa ca w
      = (e, s, mk_os (open_fds w) e (calls w ++ [sys_socket]))
  | succeeds fd =>
      fd <> -1 ->
      calls (connect s addr sa ca w).2
      = calls w ++ [sys_socket; sys_fcntl_cloexec fd; sys_connect fd addr]
  end.
Proof.
  unfold exceeds_path_limit, connect. intros H.
  destruct (Nat.leb_spec sun_path_size (String.length addr)); [lia|].
  destruct sa as [fd|e]; cbn.
  - intros Hfd. destruct (Z.eqb_spec fd (-1)); [done|].
    destruct ca as [[]|e]; cbn; by rewrite <- !app_assoc.
  - done.
Qed.

(** C6.  [connect] returns [EINVAL] with nothing done (no call made, the
    session as it was) if and only if the address exceeds the path-length
    limit; for an address within the limit it goes on to open a socket
    and, having got one, to connect it to the address. *)
Theorem connect_path_limit s addr sa ca w :
  (exceeds_path_limit addr <-> connect s addr sa ca w = (EINVAL, s, w))
  /\
  (~ exceeds_path_limit addr ->
   exists rest, calls (connect s addr sa ca w).2 = calls w ++ sys_socket :: rest
     /\ forall fd, sa = succeeds fd -> fd <> -1 ->
                   rest = [sys_fcntl_cloexec fd; sys_connect fd addr]).
Proof.
  assert (Hin : ~ exceeds_path_limit addr ->
    exists rest, calls (connect s addr sa ca w).2 = calls w ++ sys_socket :: rest
      /\ forall fd, sa = succeeds fd -> fd <> -1 ->
                    rest = [sys_fcntl_cloexec fd; sys_connect fd addr]).
  { intros Hfit. pose proof (connect_attempted s addr sa ca w Hfit) as H.
    destruct sa as [fd|e].
    - destruct (Z.eq_dec fd (-1)) as [->|Hfd].
      + exists []. split; [|by intros fd' [= <-] Hc].
        unfold connect, exceeds_path_limit in *.
        destruct (Nat.leb_spec sun_path_size (String.length addr)); [lia|done].
      + exists [sys_fcntl_cloexec fd; sys_connect fd addr].
        split; [by apply H|]. by intros fd' [= <-] _.
    - exists []. rewrite H. split; [done|]. intros fd Hc. discriminate. }
  split; [|exact Hin]. split; [apply connect_rejected|].
  intros Heq. destruct (decide (exceeds_path_limit addr)) as [|Hfit]; [done|].
  destruct (Hin Hfit) as (rest & Hcalls & _). rewrite Heq in Hcalls. cbn in Hcalls.
  apply (f_equal length) in Hcalls. rewrite length_app in Hcalls. cbn in Hcalls. lia.
Qed.

Lemma connect_path_limit_witness :
  ~ exceeds_path_limit "/tmp/nvim.sock" /\
  exists rest,
    calls (connect (neovim_new (mk_table [empty_handler] 0)) "/tmp/nvim.sock"
             (succeeds 3) (succeeds ()) (mk_os [0; 1; 2] 0 [])).2
    = [] ++ sys_socket :: rest
    /\ forall fd, succeeds 3 = succeeds fd -> fd <> -1 ->
                  rest = [sys_fcntl_cloexec fd; sys_connect fd "/tmp/nvim.sock"].
Proof.
  assert (Hfit : ~ exceeds_path_limit "/tmp/nvim.sock")
    by by_computation.
  split; [exact Hfit|].
  apply (connect_path_limit (neovim_new (mk_table [empty_handler] 0))
           "/tmp/nvim.sock" (succeeds 3) (succeeds ()) (mk_os [0; 1; 2] 0 [])).
  exact Hfit.
Defined.

(** C5, at the input where it fails: the socket is opened, connecting it
    fails, and [connect] returns the error with the socket still open; no
    [close] is among the calls made.  The descriptors of the session stay
    at -1. *)
Theorem connect_failure_leaves_socket_open :
  connect (neovim_new (mk_table [empty_handler] 0)) "/tmp/nvim.sock"
          (succeeds 3) (fails 61) (mk_os [0; 1; 2] 0 [])
  = (61, neovim_new (mk_table [empty_handler] 0),
     mk_os [3; 0; 1; 2] 61
           [sys_socket; sys_fcntl_cloexec 3; sys_connect 3 "/tmp/nvim.sock"]).
Proof. reflexivity. Qed.

(** The other failures of the two operations leave no descriptor behind:
    the pipes of [spawn] close what they own, and a [socket] call that
    fails has opened nothing. *)
Example spawn_failure_closes_pipes :
  spawn (neovim_new (mk_table [empty_handler] 0)) "nvim" ["--embed"%string] []
        (succeeds (3, 4)) (succeeds (5, 6)) (fails 2) (mk_os [0; 1; 2] 0 [])
  = (2, neovim_new (mk_table [empty_handler] 0),
     mk_os [0; 1; 2] 0
           [sys_pipe; sys_pipe; sys_process_spawn "nvim" ["--embed"%string] [] 5 4;
            sys_close 5; sys_close 6; sys_close 3; sys_close 4]).
Proof. vm_compute. reflexivity. Qed.

Example spawn_second_pipe_failure_closes_first :
  spawn (neovim_new (mk_table [empty_handler] 0)) "nvim" ["--embed"%string] []
        (succeeds (3, 4)) (fails 24) (fails 2) (mk_os [0; 1; 2] 0 [])
  = (24, neovim_new (mk_table [empty_handler] 0),
     mk_os [0; 1; 2] 24 [sys_pipe; sys_pipe; sys_close 3; sys_close 4]).
Proof. vm_compute. reflexivity. Qed.

Example spawn_success_keeps_own_ends :
  spawn (neovim_new (mk_table [empty_handler] 0)) "nvim" ["--embed"%string] []
        (succeeds (3, 4)) (succeeds (5, 6)) (succeeds ()) (mk_os [0; 1; 2] 0 [])
  = (0, mk_neovim true (Some (mk_source 0 false)) (Some (mk_source 1 false))
                  3 6 (mk_table [empty_handler] 0) [],
     mk_os [6; 3; 0; 1; 2] 0
           [sys_pipe; sys_pipe; sys_process_spawn "nvim" ["--embed"%string] [] 5 4;
            sys_close 5; sys_close 4]).
Proof. vm_compute. reflexivity. Qed.

Example connect_socket_failure_opens_nothing :
  connect (neovim_new (mk_table [empty_handler] 0)) "/tmp/nvim.sock"
          (fails 24) (succeeds ()) (mk_os [0; 1; 2] 0 [])
  = (24, neovim_new (mk_table [empty_handler] 0), mk_os [0; 1; 2] 24 [sys_socket]).
Proof. reflexivity. Qed.


(** ** Reading and writing *)

(** What one message does to the session: nothing, or the call of one
    handler followed by the clearing of its slot. *)
Lemma on_rpc_message_cases B s obj s' evs :
  on_rpc_message B s obj = Some (s', evs) ->
  s' = s /\ invocations evs = 0%nat
  \/
  exists msgid k error result s1 evs1,
    handlers (handler_table s) !! Z.to_nat msgid = Some (target k) /\
    run_calls s (B k error result) = finished (s1, evs1) /\
    length (handlers (handler_table s1)) = length (handlers (handler_table s)) /\
    s' = with_handler_table s1 (cleared (handler_table s1) msgid) /\
    evs = invoke k error result :: evs1.
Proof.
  destruct obj as [| | | | | |array| |]; try (intros [= <- <-]; by left).
  unfold on_rpc_message.
  destruct (is_notification array) eqn:En.
  { apply is_notification_inv in En as (name & args & ->). cbn.
    destruct (String.eqb name "redraw"); intros [= <- <-]; by left. }
  destruct (is_response array) eqn:Er; [|intros [= <- <-]; by left].
  apply is_response_inv in Er as (id & error & result & ->).
  rewrite on_rpc_response_route. unfold route_response.
  destruct (to_size_t id =? null_msgid); [intros [= <- <-]; by left|].
  destruct (to_size_t id <? Z.of_nat (length (handlers (handler_table s))));
    [|intros [= <- <-]; by left].
  destruct (handlers (handler_table s) !! Z.to_nat (to_size_t id))
    as [[|k]|] eqn:Hk; try (intros [= <- <-]; by left).
  destruct (run_calls s (B k error result)) as [[s1 evs1]| |] eqn:Hrun;
    try discriminate.
  destruct (Nat.eqb_spec (length (handlers (handler_table s1)))
              (length (handlers (handler_table s)))) as [Hlen|]; [|discriminate].
  intros [= <- <-]. right.
  by exists (to_size_t id), k, error, result, s1, evs1.
Qed.

Section Preserved.

(** A property of the session that the table has no part in and that
    every request keeps is kept by the calls of handlers and so by the
    routing of messages. *)
Variable P : neovim -> Prop.
Hypothesis P_table : forall s t, P s -> P (with_handler_table s t).
Hypothesis P_request : forall s msgid method args s' evs,
  rpc_request s msgid method args = finished (s', evs) -> P s -> P s'.

Lemma api_preserves s c s' evs :
  api s c = finished (s', evs) -> P s -> P s'.
Proof.
  intros Hapi HP.
  destruct (api_is_request _ _ _ _ Hapi)
    as [(_ & msgid & method & args & Hreq)|(h & id & t & _ & _ & Hreq)].
  - by apply (P_request _ _ _ _ _ _ Hreq).
  - apply (P_request _ _ _ _ _ _ Hreq). by apply P_table.
Qed.

Lemma run_calls_preserves cs : forall s s' evs,
  run_calls s cs = finished (s', evs) -> P s -> P s'.
Proof.
  induction cs as [|c cs IH]; intros s s' evs; cbn [run_calls].
  - by intros [= <- <-].
  - destruct (api s c) as [[s1 evs1]| |] eqn:Hapi; try discriminate.
    destruct (run_calls s1 cs) as [[s2 evs2]| |] eqn:Hrun; try discriminate.
    intros [= <- <-] HP. apply (IH _ _ _ Hrun). by apply (api_preserves _ _ _ _ Hapi).
Qed.

Lemma on_rpc_message_preserves B s obj s' evs :
  on_rpc_message B s obj = Some (s', evs) -> P s -> P s'.
Proof.
  intros Hmsg HP.
  destruct (on_rpc_message_cases _ _ _ _ _ Hmsg)
    as [[-> _]|(msgid & k & error & result & s1 & evs1 & _ & Hrun & _ & -> & _)];
    [done|].
  apply P_table. by apply (run_calls_preserves _ _ _ _ Hrun).
Qed.

Lemma on_rpc_messages_preserves B objs : forall s s' evs,
  on_rpc_messages B s objs = Some (s', evs) -> P s -> P s'.
Proof.
  induction objs as [|obj objs IH]; intros s s' evs; cbn [on_rpc_messages].
  - by intros [= <- <-].
  - destruct (on_rpc_message B s obj) as [[s1 evs1]|] eqn:Hmsg; [|discriminate].
    destruct (on_rpc_messages B s1 objs) as [[s2 evs2]|] eqn:Hrest;
      [|discriminate].
    intros [= <- <-] HP. apply (IH _ _ _ Hrest).
    by apply (on_rpc_message_preserves _ _ _ _ _ Hmsg).
Qed.

Lemma io_can_read_preserves B s n objs s' evs :
  io_can_read B s (ssize_of (io_transferred (S n))) objs = finished (s', evs) ->
  P s -> P s'.
Proof.
  unfold io_can_read. cbn [ssize_of].
  destruct (Z.leb_spec (Z.of_nat (S n)) 0); [lia|].
  destruct (on_rpc_messages B s objs) as [[s1 evs1]|] eqn:Hmsgs; [|discriminate].
  intros [= <- <-]. by apply (on_rpc_messages_preserves _ _ _ _ _ Hmsgs).
Qed.

End Preserved.

(** C8.  A [read] or [write] that fails, the only way either returns a
    negative number, takes the handler to [std::abort]: the callback does
    not return and hands no state or error back.  Nothing else aborts. *)
Theorem io_failure_aborts B s r objs :
  (ssize_of r < 0 -> io_can_read B s (ssize_of r) objs = aborted
                     /\ io_can_write s (ssize_of r) = aborted)
  /\ (io_can_read B s (ssize_of r) objs = aborted -> ssize_of r < 0)
  /\ (io_can_write s (ssize_of r) = aborted -> ssize_of r < 0).
Proof.
  destruct r as [e|n]; cbn [ssize_of].
  - split_and!; [done|lia|lia].
  - split_and!; [lia| |].
    + unfold io_can_read, io_cancel, io_error.
      destruct (Z.of_nat n <=? 0).
      * destruct (Z.eqb_spec (Z.of_nat n) (-1)); [lia|].
        destruct (write_source s) as [d|]; [|discriminate].
        destruct (negb (cancelled d)); discriminate.
      * destruct (on_rpc_messages B s objs) as [[t evs]|];
          discriminate.
    + unfold io_can_write, io_error.
      destruct (Z.eqb_spec (Z.of_nat n) (-1)); [lia|]. cbn zeta.
      destruct (length _ =? 0)%nat; [|discriminate].
      destruct (write_source s); discriminate.
Qed.

Lemma io_failure_aborts_witness :
  ssize_of (io_failed 54) < 0 /\
  io_can_read (reentrant 0 (target 1))
              (create_sources (neovim_new (mk_table [empty_handler] 0))).2
              (ssize_of (io_failed 54)) [] = aborted
  /\ io_can_write (create_sources (neovim_new (mk_table [empty_handler] 0))).2
                  (ssize_of (io_failed 54)) = aborted.
Proof.
  assert (Hneg : ssize_of (io_failed 54) < 0) by (simpl; lia).
  split; [exact Hneg|].
  destruct (io_failure_aborts (reentrant 0 (target 1))
              (create_sources (neovim_new (mk_table [empty_handler] 0))).2
              (io_failed 54) []) as [Hfail _].
  exact (Hfail Hneg).
Defined.

Lemma io_can_write_spec s n d :
  write_source s = Some d ->
  exists s' evs,
    io_can_write s (ssize_of (io_transferred n)) = finished (s', evs)
    /\ packer s' = drop n (packer s)
    /\ (packer s' = [] /\ evs = [dispatch_suspend writer]
        /\ write_source s' = Some (suspended d)
        \/ packer s' <> [] /\ evs = [] /\ write_source s' = Some d).
Proof.
  intros Hd. unfold io_can_write. cbn [ssize_of].
  destruct (Z.eqb_spec (Z.of_nat n) (-1)); [lia|]. cbn zeta.
  rewrite Nat2Z.id, Hd.
  destruct (drop n (packer s)) as [|b p] eqn:E; cbn [length Nat.eqb].
  - eexists _, _. split; [reflexivity|]. cbn [packer with_write_source with_packer].
    split; [done|]. by left.
  - eexists _, _. split; [reflexivity|]. cbn [packer write_source with_packer].
    split; [done|]. right. by rewrite Hd.
Qed.

Lemma create_sources_in_step s0 :
  packer s0 = [] -> writer_in_step (create_sources s0).2.
Proof.
  intros Hp. exists dispatch_source_create. cbn. by rewrite Hp.
Qed.

Lemma rpc_request_in_step s msgid method args s' evs :
  rpc_request s msgid method args = finished (s', evs) ->
  writer_in_step s -> writer_in_step s'.
Proof.
  intros Hreq (d & Hd & Hcount). unfold writer_in_step.
  destruct (packer s) as [|b p] eqn:E.
  - destruct (rpc_request_idle s msgid method args d Hd E)
      as (s2 & Hreq2 & Hsrc & Hne).
    rewrite Hreq in Hreq2. injection Hreq2 as <- _.
    exists (resumed d). split; [done|]. cbn. rewrite Hcount.
    by destruct (packer s').
  - destruct (rpc_request_busy s msgid method args) as (s2 & Hreq2 & Hsrc & Hne);
      [by rewrite E|].
    rewrite Hreq in Hreq2. injection Hreq2 as <- _.
    exists d. rewrite Hsrc. split; [done|]. rewrite Hcount.
    by destruct (packer s').
Qed.

Lemma step_in_step B s s' : writer_in_step s -> step B s s' -> writer_in_step s'.
Proof.
  intros Hin Hstep.
  destruct Hstep as [s msgid method args s' evs Hreq
                    |s c s' evs Hapi
                    |s d' n s' evs Hd' Hrun Hn Hwr
                    |s n objs s' evs Hrd].
  - by apply (rpc_request_in_step _ _ _ _ _ _ Hreq).
  - refine (api_preserves writer_in_step _ _ s c s' evs Hapi Hin).
    + by intros s0 t H.
    + intros s0 msgid method args s1 evs1. apply rpc_request_in_step.
  - destruct Hin as (d & Hd & Hcount). unfold writer_in_step.
    rewrite Hd in Hd'. injection Hd' as <-.
    destruct (io_can_write_spec s n d Hd)
      as (s2 & evs2 & Hwr2 & Hp & [(He & _ & Hsrc)|(Hne & _ & Hsrc)]);
      rewrite Hwr in Hwr2; injection Hwr2 as <- <-.
    + exists (suspended d). split; [done|]. rewrite He. cbn. lia.
    + exists d. split; [done|]. rewrite Hrun. by destruct (packer s').
  - refine (io_can_read_preserves writer_in_step _ _ B s n objs s' evs Hrd Hin).
    + by intros s0 t H.
    + intros s0 msgid method args s1 evs1. apply rpc_request_in_step.
Qed.

Lemma reachable_in_step B s0 s :
  writer_in_step s0 -> reachable B s0 s -> writer_in_step s.
Proof.
  intros H0 Hreach. induction Hreach as [|s s' _ IH Hstep]; [done|].
  by apply (step_in_step B s).
Qed.

Lemma in_step_suspended s :
  writer_in_step s -> (write_suspended s <-> packer s = []).
Proof.
  intros (d & Hd & Hcount). unfold write_suspended. split.
  - intros (d' & Hd' & Hpos). rewrite Hd in Hd'. injection Hd' as <-.
    destruct (packer s); [done|lia].
  - intros Hp. exists d. split; [done|]. rewrite Hcount, Hp. lia.
Qed.

(** C7.  A request that finds the buffer empty resumes the write source,
    once; a request that finds bytes in the buffer resumes nothing; the
    write handler suspends the source exactly when the write leaves the
    buffer empty.  Hence, from the creation of the sources on and through
    any sequence of requests ([get_api_info], [quit] and [ui_attach] among
    them) and write callbacks, and of read callbacks whatever the handlers
    they call do, the write source is suspended if and only if the buffer
    is empty. *)
Theorem write_source_follows_buffer :
  (forall s msgid method args d,
      write_source s = Some d -> packer s = [] ->
      exists s', rpc_request s msgid method args
                 = finished (s', [dispatch_resume writer])
        /\ write_source s' = Some (resumed d) /\ packer s' <> [])
  /\
  (forall s msgid method args,
      packer s <> [] ->
      exists s', rpc_request s msgid method args = finished (s', [])
        /\ write_source s' = write_source s /\ packer s' <> [])
  /\
  (forall s n d,
      write_source s = Some d ->
      exists s' evs,
        io_can_write s (ssize_of (io_transferred n)) = finished (s', evs)
        /\ packer s' = drop n (packer s)
        /\ (packer s' = [] /\ evs = [dispatch_suspend writer]
            /\ write_source s' = Some (suspended d)
            \/ packer s' <> [] /\ evs = [] /\ write_source s' = Some d))
  /\
  (forall B s0 s,
      packer s0 = [] -> reachable B (create_sources s0).2 s ->
      (write_suspended s <-> packer s = [])).
Proof.
  split_and!.
  - apply rpc_request_idle.
  - apply rpc_request_busy.
  - apply io_can_write_spec.
  - intros B s0 s Hp Hreach. apply in_step_suspended.
    apply (reachable_in_step B (create_sources s0).2); [|done].
    by apply create_sources_in_step.
Qed.

Lemma write_source_follows_buffer_witness :
  exists s2,
    rpc_request (create_sources (neovim_new (mk_table [empty_handler] 0))).2
                null_msgid "nvim_command" [arg_string "qa"]
    = finished (s2, [dispatch_resume writer])
    /\ packer s2 <> []
    /\ (write_suspended s2 <-> packer s2 = []).
Proof.
  destruct write_source_follows_buffer as (Hidle & _ & _ & Hinv).
  destruct (Hidle (create_sources (neovim_new (mk_table [empty_handler] 0))).2
                  null_msgid "nvim_command"%string [arg_string "qa"]
                  dispatch_source_create)
    as (s2 & Hreq & _ & Hne); [reflexivity|reflexivity|].
  exists s2. split; [exact Hreq|]. split; [exact Hne|].
  apply (Hinv quiet (neovim_new (mk_table [empty_handler] 0)) s2); [reflexivity|].
  eapply reach_step; [apply reach_start|].
  eapply step_request. exact Hreq.
Defined.

(** * Further properties of the session *)

(** ** Where [store] is defined *)

Lemma scan_out_of_range hs n : forall i,
  scan hs i n = out_of_range ->
  exists j, (i <= j < i + n)%nat /\ hs !! j = None /\
            forall j', (i <= j' < j)%nat -> occupied hs j'.
Proof.
  induction n as [|n IH]; intros i H; simpl in H; [discriminate|].
  destruct (hs !! i) as [h|] eqn:Hi.
  - destruct h as [|k]; simpl in H; [discriminate|].
    destruct (IH _ H) as (j & Hj & Hnone & Hocc). exists j.
    split_and!; [lia|lia|done|]. intros j' Hj'.
    destruct (decide (j' = i)) as [->|Hne]; [by exists k|]. apply Hocc. lia.
  - exists i. split_and!; [lia|lia|done|]. intros j' Hj'. lia.
Qed.

Lemma scan_to_end_in_range hs i :
  scan hs i (length hs - i) <> out_of_range.
Proof.
  destruct (decide (i <= length hs)%nat) as [Hle|Hgt].
  - apply scan_in_range. lia.
  - replace (length hs - i)%nat with 0%nat by lia. discriminate.
Qed.

Lemma find_empty_undefined t :
  find_empty t = None <->
  (length (handlers t) <= last_index t)%nat /\ full t.
Proof.
  unfold find_empty, full. set (hs := handlers t). set (last := last_index t).
  split.
  - destruct (scan hs (last + 1) (length hs - (last + 1))) as [i| |] eqn:H1;
      [discriminate| |].
    + destruct (scan hs 0 (last + 1)) as [i| |] eqn:H2; try discriminate.
      intros _. apply scan_out_of_range in H2 as (j & Hj & Hnone & Hocc).
      apply lookup_ge_None in Hnone. split; [lia|].
      intros j' Hj'. apply Hocc. lia.
    + exfalso. revert H1. apply scan_to_end_in_range.
  - intros [Hlast Hfull].
    replace (length hs - (last + 1))%nat with 0%nat by lia. cbn [scan].
    destruct (scan hs 0 (last + 1)) as [i| |] eqn:H2; [| |done]; exfalso.
    + apply scan_returned in H2 as (Hr & Hv & _). unfold vacant in Hv.
      destruct (Hfull i) as [k Hk]; [by apply lookup_lt_Some in Hv|].
      rewrite Hv in Hk. discriminate.
    + destruct (scan_fell_through _ _ _ H2 (length hs)) as [k Hk]; [lia|].
      apply lookup_lt_Some in Hk. lia.
Qed.

(** X1.  [store] reads outside the vector exactly when the last index is
    not the index of a slot and no slot is vacant, in particular on a table
    of no slots; in every other state it returns an id. *)
Theorem store_undefined_iff t h :
  store t h = None <->
  (length (handlers t) <= last_index t)%nat /\ full t.
Proof.
  rewrite <- find_empty_undefined. unfold store.
  destruct (find_empty t) as [i|] eqn:Hfind; [|done].
  split; [|discriminate]. cbn zeta.
  destruct (Nat.eqb_spec i (length (handlers t))) as [->|Hne].
  - rewrite length_resize.
    destruct (Nat.ltb_spec (length (handlers t)) (length (handlers t) * 2));
      [discriminate|].
    intros _. exfalso.
    assert (Hlen : length (handlers t) = 0%nat) by lia.
    unfold find_empty in Hfind. rewrite Hlen in Hfind. cbn [scan Nat.sub] in Hfind.
    replace (last_index t + 1)%nat with (S (last_index t)) in Hfind by lia.
    cbn [scan] in Hfind.
    destruct (handlers t) as [|h0 hs]; [cbn in Hfind; discriminate|discriminate].
  - destruct (Nat.ltb_spec i (length (handlers t))); [discriminate|].
    intros _. exfalso.
    assert (Hle : (i <= length (handlers t))%nat); [|lia].
    unfold find_empty in Hfind.
    destruct (scan (handlers t) (last_index t + 1)
                (length (handlers t) - (last_index t + 1))) as [i1| |] eqn:H1.
    + injection Hfind as <-. apply scan_returned in H1. lia.
    + destruct (scan (handlers t) 0 (last_index t + 1)) as [i2| |] eqn:H2.
      * injection Hfind as <-. apply scan_returned in H2 as (_ & Hv & _).
        apply lookup_lt_Some in Hv. lia.
      * injection Hfind as <-. lia.
      * discriminate.
    + discriminate.
Qed.


(** ** What [store] and the routing of messages do to the table *)

(** X2.  [store] never disturbs a handler that is waiting: every slot that
    held a callable handler holds the same one afterwards, also when the
    table is doubled, and the number of callable handlers grows by one when
    the handler stored is callable and not at all when it is empty. *)
Theorem store_keeps_pending t h id t' :
  store t h = Some (id, t') ->
  (forall j k, handlers t !! j = Some (target k) ->
               handlers t' !! j = Some (target k))
  /\ pending (handlers t')
     = (pending (handlers t) + (if callable h then 1 else 0))%nat.
Proof.
  intros Hst. destruct (store_some _ _ _ _ Hst) as (i & grown & _ & -> & Hi & Hcase).
  cbn [handlers]. split.
  - intros j k Hj. pose proof (lookup_lt_Some _ _ _ Hj) as Hlt.
    assert (j <> i).
    { intros ->. rewrite lookup_app_l in Hi by done. rewrite Hi in Hj. discriminate. }
    rewrite list_lookup_insert_ne by done. by rewrite lookup_app_l.
  - pose proof (pending_insert _ i empty_handler h Hi) as Hp. cbn [callable] in Hp.
    rewrite pending_app, pending_replicate_empty in Hp. lia.
Qed.

Lemma store_keeps_pending_witness :
  pending (handlers (mk_table [target 1; target 2; target 3; empty_handler] 2))
  = (pending [target 1; target 2] + 1)%nat.
Proof.
  apply (store_keeps_pending (mk_table [target 1; target 2] 1) (target 3) 2).
  reflexivity.
Defined.


(** X3.  Storing a callable handler and then routing the response that
    carries the id returned calls the handler; when the handler stores no
    handler of its own while it runs, the table is given back as it was
    before the store, followed by the vacant slots the store added if it
    had to grow the table. *)
Theorem store_then_response_restores B s d k id t1 error result :
  write_source s = Some d ->
  store (handler_table s) (target k) = Some (id, t1) ->
  Z.of_nat (length (handlers (handler_table s))) < null_msgid ->
  stores_in (B k error result) = 0%nat ->
  exists s2 evs,
    on_rpc_message B (with_handler_table s t1)
      (msg.array (response id error result))
      = Some (s2, invoke k error result :: evs) /\
    invocations evs = 0%nat /\
    handlers (handler_table s2)
      = handlers (handler_table s)
        ++ replicate (length (handlers t1) - length (handlers (handler_table s)))
             empty_handler /\
    last_index (handler_table s2) = last_index t1.
Proof.
  intros Hd Hst Hfit Hnone. set (t := handler_table s) in *.
  destruct (store_some _ _ _ _ Hst) as (i & grown & -> & -> & Hi & Hcase).
  assert (Hle : (i <= length (handlers t))%nat).
  { destruct Hcase as [[Hv _]|[-> _]]; [|done].
    apply lookup_lt_Some in Hv. lia. }
  destruct (id_of_index t i Hfit Hle) as (E32 & E64 & Hnull).
  set (hs := handlers t ++ replicate grown empty_handler) in *.
  assert (Hlt : (i < length hs)%nat) by (by apply lookup_lt_Some in Hi).
  rewrite E32.
  set (s1 := with_handler_table s (mk_table (<[i := target k]> hs) i)).
  destruct (run_calls_no_store (B k error result) s1 d Hd Hnone)
    as (s2 & evs & d2 & Hrun & _ & Htab & Hinv & _).
  exists (with_handler_table s2 (cleared (handler_table s2) (Z.of_nat i))), evs.
  rewrite on_rpc_message_response, E64.
  rewrite (route_response_matched B s1 (Z.of_nat i) k); [|done|lia|].
  2:{ cbn [s1 handler_table with_handler_table handlers]. rewrite Nat2Z.id.
      by apply list_lookup_insert_eq. }
  rewrite Hrun, Htab, Nat.eqb_refl. split; [done|]. split; [done|].
  cbn [handler_table with_handler_table].
  unfold cleared. cbn [s1 handler_table with_handler_table handlers last_index].
  rewrite Nat2Z.id, length_insert. split; [|done].
  rewrite list_insert_insert_eq, list_insert_id by done.
  subst hs. rewrite length_app, length_replicate. f_equal. f_equal. lia.
Qed.

Lemma store_then_response_restores_witness :
  exists s2 evs,
    on_rpc_message (reentrant 9 (target 10))
      (with_handler_table
         (create_sources (neovim_new (mk_table [target 1; target 2] 1))).2
         (mk_table [target 1; target 2; target 3; empty_handler] 2))
      (msg.array (response 2 msg.null (msg.integer 7)))
      = Some (s2, invoke 3 msg.null (msg.integer 7) :: evs) /\
    invocations evs = 0%nat /\
    handlers (handler_table s2) = [target 1; target 2] ++ replicate (4 - 2) empty_handler /\
    last_index (handler_table s2) = 2%nat.
Proof.
  apply (store_then_response_restores (reentrant 9 (target 10))
           (create_sources (neovim_new (mk_table [target 1; target 2] 1))).2
           dispatch_source_create 3 2
           (mk_table [target 1; target 2; target 3; empty_handler] 2)
           msg.null (msg.integer 7)); by_computation.
Defined.




(** ** A handler that sends a request of its own *)

Lemma vacant_vacancies hs : forall i,
  vacant hs i -> (0 < vacancies hs)%nat.
Proof.
  unfold vacant. induction hs as [|h hs IH]; intros i Hi; [discriminate|].
  destruct i as [|i]; cbn [vacancies].
  - injection Hi as ->. cbn. lia.
  - pose proof (IH i Hi). lia.
Qed.

Lemma full_vacancies t : full t -> vacancies (handlers t) = 0%nat.
Proof.
  intros Hfull. apply pending_full in Hfull.
  pose proof (vacancies_pending (handlers t)). lia.
Qed.

(** A [store] that returns does not shrink the table, and grows it when
    no slot is vacant. *)
Lemma store_length t h id t' :
  store t h = Some (id, t') ->
  (length (handlers t) <= length (handlers t'))%nat /\
  (vacancies (handlers t) = 0%nat ->
   (length (handlers t) < length (handlers t'))%nat).
Proof.
  intros Hst. destruct (store_some _ _ _ _ Hst) as (i & grown & _ & -> & Hi & Hcase).
  cbn [handlers]. rewrite length_insert, length_app, length_replicate.
  split; [lia|]. intros Hfull.
  destruct Hcase as [[Hv _]|[-> ->]].
  - apply vacant_vacancies in Hv. lia.
  - apply lookup_lt_Some in Hi. rewrite length_app, length_replicate in Hi. lia.
Qed.

Lemma api_length s c s' evs :
  api s c = finished (s', evs) ->
  (length (handlers (handler_table s)) <= length (handlers (handler_table s')))%nat /\
  (stores_in [c] = 0%nat -> handler_table s' = handler_table s) /\
  (vacancies (handlers (handler_table s)) = 0%nat -> (0 < stores_in [c])%nat ->
   (length (handlers (handler_table s)) < length (handlers (handler_table s')))%nat).
Proof.
  intros Hapi.
  destruct (api_is_request _ _ _ _ Hapi)
    as [(Hnone & msgid & method & args & Hreq)|(h & id & t & -> & Hst & Hreq)].
  - destruct (rpc_request_inv _ _ _ _ _ _ Hreq) as (Htab & _).
    rewrite Htab. split_and!; [lia|done|lia].
  - destruct (rpc_request_inv _ _ _ _ _ _ Hreq) as (Htab & _).
    rewrite Htab. cbn [handler_table with_handler_table stores_in].
    destruct (store_length _ _ _ _ Hst) as [Hle Hlt].
    split_and!; [done|discriminate|]. intros Hfull _. by apply Hlt.
Qed.

Lemma run_calls_length cs : forall s s' evs,
  run_calls s cs = finished (s', evs) ->
  (length (handlers (handler_table s)) <= length (handlers (handler_table s')))%nat /\
  (vacancies (handlers (handler_table s)) = 0%nat -> (0 < stores_in cs)%nat ->
   (length (handlers (handler_table s)) < length (handlers (handler_table s')))%nat).
Proof.
  induction cs as [|c cs IH]; intros s s' evs; cbn [run_calls].
  - intros [= <- <-]. split; [lia|]. cbn. lia.
  - destruct (api s c) as [[s1 evs1]| |] eqn:Hapi; try discriminate.
    destruct (run_calls s1 cs) as [[s2 evs2]| |] eqn:Hrun; try discriminate.
    intros [= <- <-].
    destruct (api_length _ _ _ _ Hapi) as (Hle1 & Hsame1 & Hlt1).
    destruct (IH _ _ _ Hrun) as (Hle2 & Hlt2).
    split; [lia|]. intros Hfull Hstores.
    destruct c as [h|confirm|width height]; cbn [stores_in] in *.
    + assert (length (handlers (handler_table s))
              < length (handlers (handler_table s1)))%nat by (apply Hlt1; [done|lia]).
      lia.
    + rewrite Hsame1 in * by done. by apply Hlt2.
    + rewrite Hsame1 in * by done. by apply Hlt2.
Qed.

(** X5.  A handler that sends a request with a handler of its own
    ([get_api_info]) when it is called while no slot of the table is vacant
    makes [store] resize the vector that holds the handler being called:
    the reference [on_rpc_response] holds to its slot is left dangling, the
    assignment that clears the slot goes through it, and the routing of the
    response, and the read callback that brought it, have no defined
    behaviour. *)
Theorem handler_request_on_full_table B s id k error result :
  full (handler_table s) ->
  to_size_t id <> null_msgid ->
  handlers (handler_table s) !! Z.to_nat (to_size_t id) = Some (target k) ->
  (0 < stores_in (B k error result))%nat ->
  on_rpc_message B s (msg.array (response id error result)) = None
  /\ forall n objs,
       io_can_read B s (ssize_of (io_transferred (S n)))
         (msg.array (response id error result) :: objs) = undefined.
Proof.
  intros Hfull Hnull Hk Hstores.
  assert (Hmsg : on_rpc_message B s (msg.array (response id error result)) = None).
  { rewrite on_rpc_message_response.
    rewrite (route_response_matched B s (to_size_t id) k); [|done| |done].
    2:{ apply to_size_t_range. }
    destruct (run_calls s (B k error result)) as [[s1 evs1]| |] eqn:Hrun; try done.
    destruct (run_calls_length _ _ _ _ Hrun) as [_ Hlt].
    destruct (Nat.eqb_spec (length (handlers (handler_table s1)))
                (length (handlers (handler_table s)))) as [Heq|]; [|done].
    pose proof (Hlt (full_vacancies _ Hfull) Hstores). lia. }
  split; [exact Hmsg|]. intros n objs. unfold io_can_read. cbn [ssize_of].
  destruct (Z.leb_spec (Z.of_nat (S n)) 0); [lia|].
  cbn [on_rpc_messages]. by rewrite Hmsg.
Qed.

Lemma handler_request_on_full_table_witness :
  on_rpc_message (reentrant 0 (target 1))
    (create_sources (neovim_new (mk_table [target 0] 0))).2
    (msg.array (response 0 msg.null (msg.string "ok"))) = None.
Proof.
  refine (proj1 (handler_request_on_full_table (reentrant 0 (target 1))
           (create_sources (neovim_new (mk_table [target 0] 0))).2
           0 0 msg.null (msg.string "ok") _ _ _ _)).
  - intros j Hj. cbn in Hj. destruct j as [|j]; [by exists 0%nat|lia].
  - by_computation.
  - reflexivity.
  - cbn. lia.
Defined.

(** ** End of stream *)

(** X6.  At the end of the stream (a [read] of no bytes) the read handler
    closes the window and cancels the write source, resuming it first,
    unless it was cancelled already.  It reads nothing from the unpacker
    and leaves the table alone: the handlers still waiting are neither
    called nor removed.  Once there, a further end of stream only closes
    the window again. *)
Theorem end_of_stream B s objs d :
  write_source s = Some d ->
  exists s1 evs,
    io_can_read B s (ssize_of (io_transferred 0)) objs
      = finished (s1, ui_window_close :: evs) /\
    evs = (if cancelled d then []
           else [dispatch_resume writer; dispatch_source_cancel writer]) /\
    handler_table s1 = handler_table s /\ packer s1 = packer s /\
    read_fd s1 = read_fd s /\ write_fd s1 = write_fd s /\
    (exists d1, write_source s1 = Some d1 /\ cancelled d1 = true) /\
    io_can_read B s1 (ssize_of (io_transferred 0)) objs
      = finished (s1, [ui_window_close]).
Proof.
  intros Hd. unfold io_can_read, io_cancel. cbn [ssize_of Nat2Z.inj].
  change (Z.of_nat 0) with 0. cbn [Z.leb Z.eqb Z.compare].
  rewrite Hd. destruct (cancelled d) eqn:Hc; cbn [negb].
  - exists s, []. rewrite Hd, Hc. cbn [negb]. split_and!; try done. by exists d.
  - eexists _, _. split; [reflexivity|]. cbn.
    split_and!; try done. by eexists.
Qed.

Lemma end_of_stream_witness :
  exists s1 evs,
    io_can_read quiet (create_sources (neovim_new (mk_table [target 1] 0))).2
                (ssize_of (io_transferred 0))
                [msg.array (response 0 msg.null msg.null)]
      = finished (s1, ui_window_close :: evs) /\
    handler_table s1 = mk_table [target 1] 0.
Proof.
  destruct (end_of_stream quiet (create_sources (neovim_new (mk_table [target 1] 0))).2
              [msg.array (response 0 msg.null msg.null)] dispatch_source_create)
    as (s1 & evs & Hread & _ & Htable & _); [reflexivity|].
  exists s1, evs. split; [exact Hread|exact Htable].
Defined.

Lemma reachable_not_cancelled B s0 s :
  reachable B (create_sources s0).2 s ->
  exists d, write_source s = Some d /\ cancelled d = false.
Proof.
  intros Hreach. induction Hreach as [|s s' _ (d & Hd & Hc) Hstep].
  { by exists dispatch_source_create. }
  assert (Hrequest : forall s1 msgid method args s2 evs,
    rpc_request s1 msgid method args = finished (s2, evs) ->
    (exists d, write_source s1 = Some d /\ cancelled d = false) ->
    exists d, write_source s2 = Some d /\ cancelled d = false).
  { intros s1 msgid method args s2 evs Hreq (d1 & Hd1 & Hc1).
    destruct (rpc_request_inv _ _ _ _ _ _ Hreq) as (_ & _ & _ & _ & _ & _ & _ & Hsrc).
    destruct (Hsrc d1 Hd1) as (d2 & Hd2 & Hc2). exists d2. by rewrite Hc2. }
  destruct Hstep as [s msgid method args s' evs Hreq
                    |s c s' evs Hapi
                    |s d' n s' evs Hd' Hrun Hn Hwr
                    |s n objs s' evs Hrd].
  - apply (Hrequest _ _ _ _ _ _ Hreq). by exists d.
  - refine (api_preserves
              (fun s => exists d, write_source s = Some d /\ cancelled d = false)
              _ Hrequest s c s' evs Hapi _); [|by exists d].
    by intros s1 t H.
  - destruct (io_can_write_spec s n d Hd)
      as (s2 & evs2 & Hwr2 & _ & [(_ & _ & Hsrc)|(_ & _ & Hsrc)]);
      rewrite Hwr in Hwr2; injection Hwr2 as <- <-.
    + by exists (suspended d).
    + by exists d.
  - refine (io_can_read_preserves
              (fun s => exists d, write_source s = Some d /\ cancelled d = false)
              _ Hrequest B s n objs s' evs Hrd _); [|by exists d].
    by intros s1 t H.
Qed.

(** X7.  The resume that [io_cancel] gives the write source at the end of
    the stream matches a suspension only when the buffer is empty.  When
    bytes are still queued the source is not suspended, and the resume takes
    its suspension count below zero. *)
Theorem end_of_stream_resume B s0 s objs :
  packer s0 = [] ->
  reachable B (create_sources s0).2 s ->
  exists s1 d1,
    io_can_read B s (ssize_of (io_transferred 0)) objs
      = finished (s1, [ui_window_close; dispatch_resume writer;
                       dispatch_source_cancel writer]) /\
    write_source s1 = Some d1 /\ cancelled d1 = true /\
    suspend_count d1 = match packer s with [] => 0 | _ :: _ => -1 end.
Proof.
  intros Hp Hreach.
  destruct (reachable_not_cancelled _ _ _ Hreach) as (d & Hd & Hc).
  destruct (reachable_in_step _ _ _ (create_sources_in_step s0 Hp) Hreach)
    as (d' & Hd' & Hcount).
  rewrite Hd in Hd'. injection Hd' as <-.
  unfold io_can_read, io_cancel. cbn [ssize_of].
  change (Z.of_nat 0) with 0. cbn [Z.leb Z.eqb Z.compare].
  rewrite Hd, Hc. cbn [negb].
  exists (with_write_source s (cancel (resumed d))), (cancel (resumed d)).
  split; [reflexivity|]. split; [reflexivity|]. split; [reflexivity|].
  unfold cancel, resumed. cbn [suspend_count].
  revert Hcount. destruct (packer s); lia.
Qed.

Lemma end_of_stream_resume_witness :
  exists s s1 d1,
    quit (create_sources (neovim_new (mk_table [empty_handler] 0))).2 true
      = finished (s, [dispatch_resume writer]) /\
    io_can_read quiet s (ssize_of (io_transferred 0)) []
      = finished (s1, [ui_window_close; dispatch_resume writer;
                       dispatch_source_cancel writer]) /\
    write_source s1 = Some d1 /\ suspend_count d1 = -1.
Proof.
  destruct (rpc_request_idle
              (create_sources (neovim_new (mk_table [empty_handler] 0))).2
              null_msgid "nvim_command"%string [arg_string "qa"]
              dispatch_source_create)
    as (s & Hreq & _ & Hne); [reflexivity|reflexivity|].
  destruct (end_of_stream_resume quiet (neovim_new (mk_table [empty_handler] 0)) s [])
    as (s1 & d1 & Hread & Hd1 & _ & Hcount); [reflexivity| |].
  { eapply reach_step; [apply reach_start|]. eapply step_request. exact Hreq. }
  exists s, s1, d1. split; [exact Hreq|]. split; [exact Hread|].
  split; [exact Hd1|]. rewrite Hcount. destruct (packer s); [done|reflexivity].
Defined.

(** ** The order of the bytes written *)

(** X8.  Through any sequence of requests and of writes, whole or partial,
    no byte is lost, repeated or reordered: the bytes written so far,
    followed by the bytes still in the buffer, are the bytes that were in
    the buffer at the start followed by the encodings of the requests in the
    order they were made. *)
Theorem run_conserves_bytes acts : forall s d,
  write_source s = Some d ->
  exists s' wire,
    run s acts = finished (s', wire) /\
    wire ++ packer s' = packer s ++ requested acts.
Proof.
  induction acts as [|[msgid method args|n] rest IH]; intros s d Hd;
    cbn [run requested].
  - exists s, []. split; [done|]. by rewrite app_nil_r.
  - destruct (rpc_request_appends s msgid method args d Hd)
      as (s1 & evs & d1 & Hreq & Hp & Hd1 & _).
    rewrite Hreq. destruct (IH s1 d1 Hd1) as (s' & wire & Hrun & Hw).
    exists s', wire. split; [done|]. by rewrite Hw, Hp, <- app_assoc.
  - destruct (io_can_write_spec s n d Hd)
      as (s1 & evs & Hwr & Hp & Hsrc).
    rewrite Hwr.
    assert (Hd1 : exists d1, write_source s1 = Some d1).
    { destruct Hsrc as [(_ & _ & H)|(_ & _ & H)]; eauto. }
    destruct Hd1 as [d1 Hd1].
    destruct (IH s1 d1 Hd1) as (s' & wire & Hrun & Hw).
    rewrite Hrun. exists s', (take n (packer s) ++ wire). split; [done|].
    rewrite <- app_assoc, Hw, Hp, app_assoc, take_drop. done.
Qed.

Lemma run_conserves_bytes_witness :
  exists s' wire,
    run (create_sources (neovim_new (mk_table [empty_handler] 0))).2
        [queue_request null_msgid "nvim_command" [arg_string "qa"];
         write_ready 5;
         queue_request 0 "nvim_get_api_info" [];
         write_ready 30]
      = finished (s', wire) /\
    wire ++ packer s'
    = [] ++ requested
              [queue_request null_msgid "nvim_command" [arg_string "qa"];
               write_ready 5;
               queue_request 0 "nvim_get_api_info" [];
               write_ready 30].
Proof.
  exact (run_conserves_bytes
           [queue_request null_msgid "nvim_command" [arg_string "qa"];
            write_ready 5;
            queue_request 0 "nvim_get_api_info" [];
            write_ready 30]
           (create_sources (neovim_new (mk_table [empty_handler] 0))).2
           dispatch_source_create eq_refl).
Defined.

(** ** What [connect] and [spawn] leave behind *)

(** X9.  [connect] either leaves the session exactly as it was, or, when
    both the socket and the connection succeed, returns 0 with the one
    socket as read and as write descriptor, the read source resumed and the
    write source suspended, the table and the buffer untouched.  It never
    closes a descriptor: once [socket] has succeeded the socket stays open
    whatever [::connect] answers. *)
Theorem connect_effects s addr sa ca w r s' w' :
  connect s addr sa ca w = (r, s', w') ->
  (s' = s
   \/ exists fd, sa = succeeds fd /\ ca = succeeds () /\ r = 0 /\
        s' = mk_neovim true (Some (mk_source 0 false)) (Some (mk_source 1 false))
                       fd fd (handler_table s) (packer s))
  /\ (exists new, calls w' = calls w ++ new /\ forallb (fun c => negb (is_close c)) new = true)
  /\ (forall fd, ~ exceeds_path_limit addr -> sa = succeeds fd -> fd <> -1 ->
                 open_fds w' = fd :: open_fds w).
Proof.
  unfold connect, exceeds_path_limit.
  destruct (Nat.leb_spec sun_path_size (String.length addr)) as [Hlong|Hfit].
  { intros [= <- <- <-]. split_and!; [by left| |intros; lia].
    exists []. by rewrite app_nil_r. }
  destruct sa as [fd|e]; cbn [socket].
  - destruct (Z.eqb_spec fd (-1)) as [->|Hfd].
    { intros [= <- <- <-]. split_and!; [by left| |by intros fd' _ [= <-] Hc].
      by exists [sys_socket]. }
    destruct ca as [[]|e]; cbn [sys_connect_call fcntl_cloexec calls open_fds errno];
      cbn [Z.eqb create_sources with_fds read_fd write_fd handler_table packer
           resumed dispatch_source_create suspend_count cancelled Z.sub Z.add
           Z.pos_sub Z.opp];
      intros [= <- <- <-]; cbn [calls open_fds].
    + split_and!; [right; by exists fd| |by intros fd' _ [= <-] _].
      exists [sys_socket; sys_fcntl_cloexec fd; sys_connect fd addr].
      split; [by rewrite <- !app_assoc|done].
    + split_and!; [by left| |by intros fd' _ [= <-] _].
      exists [sys_socket; sys_fcntl_cloexec fd; sys_connect fd addr].
      split; [by rewrite <- !app_assoc|done].
  - cbn [Z.eqb]. intros [= <- <- <-]. cbn [calls].
    split_and!; [by left| |intros; discriminate]. by exists [sys_socket].
Qed.

Lemma connect_effects_witness :
  open_fds (mk_os [3; 0; 1; 2] 61
              [sys_socket; sys_fcntl_cloexec 3; sys_connect 3 "/tmp/nvim.sock"])
  = 3 :: open_fds (mk_os [0; 1; 2] 0 []).
Proof.
  destruct (connect_effects (neovim_new (mk_table [empty_handler] 0))
              "/tmp/nvim.sock" (succeeds 3) (fails 61) (mk_os [0; 1; 2] 0 [])
              61 (neovim_new (mk_table [empty_handler] 0))
              (mk_os [3; 0; 1; 2] 61
                 [sys_socket; sys_fcntl_cloexec 3; sys_connect 3 "/tmp/nvim.sock"])
              eq_refl) as (_ & _ & Hopen).
  apply (Hopen 3); by_computation.
Defined.

Lemma close_owned_calls fd w :
  exists closes, calls (close_owned fd w) = calls w ++ closes.
Proof.
  unfold close_owned, close. destruct (fd =? -1); cbn [calls].
  - exists []. by rewrite app_nil_r.
  - by eexists.
Qed.

Lemma pipe_destroy_calls p w :
  exists closes, calls (pipe_destroy p w) = calls w ++ closes.
Proof.
  unfold pipe_destroy.
  destruct (close_owned_calls (read_end p) w) as [c1 H1].
  destruct (close_owned_calls (write_end p) (close_owned (read_end p) w))
    as [c2 H2].
  exists (c1 ++ c2). by rewrite H2, H1, app_assoc.
Qed.

(** X10.  [spawn] either leaves the session exactly as it was, or, when
    both pipes and the child are made, returns 0 with the read end of the
    first pipe as read descriptor and the write end of the second as write
    descriptor, the child having been given the other two ends: it reads
    what the session writes and writes what the session reads. *)
Theorem spawn_effects s path args env ra wa sa w r s' w' :
  reports_failure ra -> reports_failure wa -> reports_failure sa ->
  spawn s path args env ra wa sa w = (r, s', w') ->
  s' = s
  \/ exists r1 w1 r2 w2,
       ra = succeeds (r1, w1) /\ wa = succeeds (r2, w2) /\ sa = succeeds () /\
       r = 0 /\
       s' = mk_neovim true (Some (mk_source 0 false)) (Some (mk_source 1 false))
                      r1 w2 (handler_table s) (packer s) /\
       sys_process_spawn path args env r2 w1 ∈ calls w'.
Proof.
  unfold reports_failure, spawn. intros Hra Hwa Hsa.
  destruct ra as [[r1 w1]|e1]; cbn [pipe_open].
  2:{ destruct (Z.eqb_spec e1 0) as [->|]; [done|]. cbn [negb].
      intros [= <- <- <-]. by left. }
  cbn [Z.eqb negb]. destruct wa as [[r2 w2]|e2]; cbn [pipe_open].
  2:{ destruct (Z.eqb_spec e2 0) as [->|]; [done|]. cbn [negb].
      intros [= <- <- <-]. by left. }
  cbn [Z.eqb negb read_end write_end]. destruct sa as [[]|e3]; cbn [process_spawn].
  2:{ destruct (Z.eqb_spec e3 0) as [->|]; [done|]. cbn [negb].
      intros [= <- <- <-]. by left. }
  cbn [Z.eqb negb create_sources with_fds read_fd write_fd handler_table packer].
  intros [= <- <- <-]. right. exists r1, w1, r2, w2. split_and!; try done.
  match goal with |- _ ∈ calls (pipe_destroy ?p ?w0) =>
    destruct (pipe_destroy_calls p w0) as [c2 H2]; rewrite H2 end.
  match goal with |- _ ∈ calls (pipe_destroy ?p ?w0) ++ _ =>
    destruct (pipe_destroy_calls p w0) as [c3 H3]; rewrite H3 end.
  cbn [calls]. rewrite !elem_of_app. left. left. right. by left.
Qed.

Lemma spawn_effects_witness :
  (24, neovim_new (mk_table [empty_handler] 0),
   mk_os [0; 1; 2] 24 [sys_pipe; sys_pipe; sys_close 3; sys_close 4]).1.2
  = neovim_new (mk_table [empty_handler] 0)
  \/ exists r1 w1 r2 w2,
       succeeds (3, 4) = succeeds (r1, w1) /\ fails 24 = succeeds (r2, w2) /\
       fails 2 = succeeds () /\ 24 = 0 /\
       neovim_new (mk_table [empty_handler] 0)
       = mk_neovim true (Some (mk_source 0 false)) (Some (mk_source 1 false))
                   r1 w2 (handler_table (neovim_new (mk_table [empty_handler] 0)))
                   (packer (neovim_new (mk_table [empty_handler] 0))) /\
       sys_process_spawn "nvim" ["--embed"%string] [] r2 w1
       ∈ calls (mk_os [0; 1; 2] 24 [sys_pipe; sys_pipe; sys_close 3; sys_close 4]).
Proof.
  apply (spawn_effects (neovim_new (mk_table [empty_handler] 0))
           "nvim" ["--embed"%string] [] (succeeds (3, 4)) (fails 24) (fails 2)
           (mk_os [0; 1; 2] 0 []) 24);
    try (unfold reports_failure; discriminate).
  vm_compute. reflexivity.
Defined.

(** ** From set-up to destruction *)

Lemma filter_other_notin (fd : Z) (l : list Z) :
  fd ∉ l -> filter (fun x => x <> fd) l = l.
Proof.
  induction l as [|y l IH]; [done|]. intros Hnotin.
  apply not_elem_of_cons in Hnotin as [Hne Hl].
  rewrite filter_cons_True by done. by rewrite IH.
Qed.

Lemma close_head fd l e c :
  fd ∉ l ->
  close fd (mk_os (fd :: l) e c) = mk_os l e (c ++ [sys_close fd]).
Proof.
  intros Hnotin. unfold close. cbn [open_fds errno calls].
  rewrite filter_cons_False by (intros H; by apply H).
  by rewrite filter_other_notin.
Qed.

Lemma close_second fd y l e c :
  y <> fd -> fd ∉ l ->
  close fd (mk_os (y :: fd :: l) e c) = mk_os (y :: l) e (c ++ [sys_close fd]).
Proof.
  intros Hne Hnotin. unfold close. cbn [open_fds errno calls].
  rewrite filter_cons_True by done.
  rewrite filter_cons_False by (intros H; by apply H).
  by rewrite filter_other_notin.
Qed.

(** X11.  The life of a session over a socket.  After a successful
    [connect] the destructor may not run yet: with assertions compiled in it
    aborts, the sources not being cancelled.  The end of the stream cancels
    the write source, whose cancel handler cancels the read source; after
    that the destructor runs to its end and closes the socket, once, though
    it is both the read and the write descriptor.  The process then holds
    the descriptors it held before [connect]. *)
Theorem socket_session_lifecycle B t addr fd w assertions :
  ~ exceeds_path_limit addr -> fd <> -1 -> fd ∉ open_fds w ->
  exists s1 w1 s2 s3 w4 tevs,
    connect (neovim_new t) addr (succeeds fd) (succeeds ()) w = (0, s1, w1) /\
    neovim_destroy true s1 w1 = aborted /\
    io_can_read B s1 (ssize_of (io_transferred 0)) []
      = finished (s2, [ui_window_close; dispatch_resume writer;
                       dispatch_source_cancel writer]) /\
    write_source_cancel_handler s2
      = finished (s3, [dispatch_source_cancel reader]) /\
    neovim_destroy assertions s3 w1 = finished (w4, tevs) /\
    open_fds w4 = open_fds w /\
    calls w4 = calls w ++ [sys_socket; sys_fcntl_cloexec fd;
                           sys_connect fd addr; sys_close fd].
Proof.
  intros Hfit Hfd Hfresh. unfold connect, exceeds_path_limit in *.
  destruct (Nat.leb_spec sun_path_size (String.length addr)); [lia|].
  cbn [socket]. destruct (Z.eqb_spec fd (-1)); [done|].
  cbn [sys_connect_call fcntl_cloexec calls open_fds errno Z.eqb].
  eexists _, _, _, _, _, _. split; [reflexivity|].
  split; [reflexivity|]. split; [reflexivity|]. split; [reflexivity|].
  unfold neovim_destroy.
  cbn [queue read_source write_source read_fd write_fd with_read_source
       with_write_source create_sources with_fds fst snd negb
       dispatch_source_testcancel cancel cancelled resumed].
  rewrite Z.eqb_refl. destruct (Z.eqb_spec fd (-1)); [done|].
  cbn [negb andb]. rewrite !andb_false_r.
  rewrite close_head by done.
  split; [reflexivity|]. cbn [open_fds calls]. split; [done|].
  by rewrite <- !app_assoc.
Qed.

Lemma socket_session_lifecycle_witness :
  exists s1 w1 s2 s3 w4 tevs,
    connect (neovim_new (mk_table [empty_handler] 0)) "/tmp/nvim.sock"
            (succeeds 3) (succeeds ()) (mk_os [0; 1; 2] 0 []) = (0, s1, w1) /\
    neovim_destroy true s1 w1 = aborted /\
    io_can_read quiet s1 (ssize_of (io_transferred 0)) []
      = finished (s2, [ui_window_close; dispatch_resume writer;
                       dispatch_source_cancel writer]) /\
    write_source_cancel_handler s2
      = finished (s3, [dispatch_source_cancel reader]) /\
    neovim_destroy true s3 w1 = finished (w4, tevs) /\
    open_fds w4 = open_fds (mk_os [0; 1; 2] 0 []) /\
    calls w4 = calls (mk_os [0; 1; 2] 0 [])
               ++ [sys_socket; sys_fcntl_cloexec 3;
                   sys_connect 3 "/tmp/nvim.sock"; sys_close 3].
Proof.
  apply (socket_session_lifecycle quiet (mk_table [empty_handler] 0) "/tmp/nvim.sock"
           3 (mk_os [0; 1; 2] 0 []) true); [by_computation|by_computation|].
  cbn [open_fds]. intros Hin.
  repeat (apply elem_of_cons in Hin as [Hin|Hin]; [discriminate|]).
  by apply elem_of_nil in Hin.
Defined.

Lemma filter_other_middle (fd : Z) (a b : list Z) :
  fd ∉ a -> fd ∉ b -> filter (fun x => x <> fd) (a ++ fd :: b) = a ++ b.
Proof.
  intros Ha Hb. induction a as [|y a IH]; cbn [app].
  - rewrite filter_cons_False by (intros H; by apply H).
    by apply filter_other_notin.
  - apply not_elem_of_cons in Ha as [Hne Ha].
    rewrite filter_cons_True by done. by rewrite IH.
Qed.

Lemma close_middle fd a b e c :
  fd ∉ a -> fd ∉ b ->
  close fd (mk_os (a ++ fd :: b) e c) = mk_os (a ++ b) e (c ++ [sys_close fd]).
Proof.
  intros Ha Hb. unfold close. cbn [open_fds errno calls].
  by rewrite filter_other_middle.
Qed.

Lemma close_owned_none w : close_owned (-1) w = w.
Proof. reflexivity. Qed.

Lemma close_owned_real fd w : fd <> -1 -> close_owned fd w = close fd w.
Proof. intros H. unfold close_owned. by destruct (Z.eqb_spec fd (-1)). Qed.

(** X12.  The life of a session over a child process.  Of the four pipe
    ends a successful [spawn] opens, the two given to the child are closed
    when [spawn] returns (by the pipes that still own them) and the two the
    session keeps are closed by the destructor, each once, after the end of
    the stream has cancelled the sources.  The process then holds the
    descriptors it held before [spawn]. *)
Theorem child_session_lifecycle B t path args env r1 w1 r2 w2 w assertions :
  NoDup [r1; w1; r2; w2] ->
  Forall (fun fd => fd <> -1 /\ fd ∉ open_fds w) [r1; w1; r2; w2] ->
  exists s1 w' s2 s3 w4 tevs,
    spawn (neovim_new t) path args env
          (succeeds (r1, w1)) (succeeds (r2, w2)) (succeeds ()) w = (0, s1, w') /\
    read_fd s1 = r1 /\ write_fd s1 = w2 /\
    open_fds w' = w2 :: r1 :: open_fds w /\
    io_can_read B s1 (ssize_of (io_transferred 0)) []
      = finished (s2, [ui_window_close; dispatch_resume writer;
                       dispatch_source_cancel writer]) /\
    write_source_cancel_handler s2
      = finished (s3, [dispatch_source_cancel reader]) /\
    neovim_destroy assertions s3 w' = finished (w4, tevs) /\
    open_fds w4 = open_fds w /\
    calls w4 = calls w ++ [sys_pipe; sys_pipe;
                           sys_process_spawn path args env r2 w1;
                           sys_close r2; sys_close w1;
                           sys_close r1; sys_close w2].
Proof.
  intros Hnd Hall.
  pose proof (NoDup_cons_1_1 _ _ Hnd) as Hr1. apply NoDup_cons_1_2 in Hnd.
  pose proof (NoDup_cons_1_1 _ _ Hnd) as Hw1. apply NoDup_cons_1_2 in Hnd.
  pose proof (NoDup_cons_1_1 _ _ Hnd) as Hr2.
  apply not_elem_of_cons in Hr1 as [Hr1w1 Hr1].
  apply not_elem_of_cons in Hr1 as [Hr1r2 Hr1].
  apply not_elem_of_cons in Hr1 as [Hr1w2 _].
  apply not_elem_of_cons in Hw1 as [Hw1r2 Hw1].
  apply not_elem_of_cons in Hw1 as [Hw1w2 _].
  apply not_elem_of_cons in Hr2 as [Hr2w2 _].
  apply Forall_cons_1 in Hall as [[Hr1' Fr1] Hall].
  apply Forall_cons_1 in Hall as [[Hw1' Fw1] Hall].
  apply Forall_cons_1 in Hall as [[Hr2' Fr2] Hall].
  apply Forall_cons_1 in Hall as [[Hw2' Fw2] _].
  set (l := open_fds w) in *.
  assert (Hspawn :
    spawn (neovim_new t) path args env
          (succeeds (r1, w1)) (succeeds (r2, w2)) (succeeds ()) w
    = (0, mk_neovim true (Some (mk_source 0 false)) (Some (mk_source 1 false))
                    r1 w2 t [],
       mk_os (w2 :: r1 :: l) (errno w)
             (calls w ++ [sys_pipe; sys_pipe;
                          sys_process_spawn path args env r2 w1;
                          sys_close r2; sys_close w1]))).
  { unfold spawn, pipe_open, process_spawn, pipe_destroy.
    cbn [Z.eqb negb read_end write_end open_fds errno calls create_sources
         with_fds read_fd write_fd handler_table packer neovim_new].
    rewrite !close_owned_none.
    rewrite (close_owned_real r2), (close_owned_real w1) by done.
    fold l.
    rewrite close_head
      by (rewrite !not_elem_of_cons; split_and!; done).
    change (w2 :: r1 :: w1 :: l) with ([w2; r1] ++ w1 :: l).
    rewrite close_middle;
      [|rewrite !not_elem_of_cons; split_and!; [done|done|apply not_elem_of_nil]
       |done].
    cbn [app]. do 2 f_equal. by rewrite <- !app_assoc. }
  rewrite Hspawn. eexists _, _, _, _, _, _. split; [reflexivity|].
  cbn [read_fd write_fd open_fds]. split; [done|]. split; [done|]. split; [done|].
  split; [reflexivity|]. split; [reflexivity|].
  unfold neovim_destroy.
  cbn [queue read_source write_source read_fd write_fd with_read_source
       with_write_source fst snd negb dispatch_source_testcancel cancel
       cancelled resumed].
  destruct (Z.eqb_spec r1 (-1)); [done|]. destruct (Z.eqb_spec w2 (-1)); [done|].
  destruct (Z.eqb_spec r1 w2); [done|].
  cbn [negb andb]. rewrite !andb_false_r.
  change (w2 :: r1 :: l) with ([w2] ++ r1 :: l).
  rewrite close_middle;
    [|rewrite !not_elem_of_cons; split_and!; [done|apply not_elem_of_nil]|done].
  change ([w2] ++ l) with ([] ++ w2 :: l).
  rewrite close_middle; [|apply not_elem_of_nil|done].
  split; [reflexivity|]. cbn [open_fds calls app]. split; [done|].
  by rewrite <- !app_assoc.
Qed.

Lemma child_session_lifecycle_witness :
  exists s1 w' s2 s3 w4 tevs,
    spawn (neovim_new (mk_table [empty_handler] 0)) "nvim" ["--embed"%string] []
          (succeeds (3, 4)) (succeeds (5, 6)) (succeeds ()) (mk_os [0; 1; 2] 0 [])
      = (0, s1, w') /\
    read_fd s1 = 3 /\ write_fd s1 = 6 /\
    open_fds w' = 6 :: 3 :: open_fds (mk_os [0; 1; 2] 0 []) /\
    io_can_read quiet s1 (ssize_of (io_transferred 0)) []
      = finished (s2, [ui_window_close; dispatch_resume writer;
                       dispatch_source_cancel writer]) /\
    write_source_cancel_handler s2
      = finished (s3, [dispatch_source_cancel reader]) /\
    neovim_destroy true s3 w' = finished (w4, tevs) /\
    open_fds w4 = open_fds (mk_os [0; 1; 2] 0 []) /\
    calls w4 = calls (mk_os [0; 1; 2] 0 [])
               ++ [sys_pipe; sys_pipe;
                   sys_process_spawn "nvim" ["--embed"%string] [] 5 4;
                   sys_close 5; sys_close 4; sys_close 3; sys_close 6].
Proof.
  apply (child_session_lifecycle quiet (mk_table [empty_handler] 0) "nvim"
           ["--embed"%string] [] 3 4 5 6 (mk_os [0; 1; 2] 0 []) true).
  - repeat (apply NoDup_cons_2;
            [rewrite ?not_elem_of_cons; split_and?;
             try discriminate; apply not_elem_of_nil|]).
    apply NoDup_nil_2.
  - cbn [open_fds].
    repeat (constructor;
            [split; [discriminate|];
             rewrite ?not_elem_of_cons; split_and?;
             try discriminate; apply not_elem_of_nil|]).
    constructor.
Defined.

(** ** Requests and their answers *)

(** X13.  [get_api_info] on a connected session stores the handler and
    queues one request that carries the id under which it is stored; the id
    is not the sentinel.  When the response with that id is read, and the
    calls the handler makes while it runs find a vacant slot for every
    handler they store, the handler is called with its error and result,
    once, and the id is free again; the bytes still queued are not touched
    by the reading: what the handler queues comes after them, and a handler
    that makes no call leaves the buffer as it was. *)
Theorem get_api_info_answered B s d k :
  write_source s = Some d ->
  table_ok (handler_table s) ->
  Z.of_nat (length (handlers (handler_table s))) < null_msgid ->
  exists id s1 evs1,
    get_api_info s (target k) = finished (s1, evs1) /\
    packer s1 = packer s ++ request_bytes id "nvim_get_api_info" [] /\
    id <> null_msgid /\
    has_handler (handler_table s1) id = true /\
    forall n error result,
      (stores_in (B k error result)
       <= vacancies (handlers (handler_table s1)))%nat ->
      exists s2 evs queued,
        io_can_read B s1 (ssize_of (io_transferred (S n)))
                    [msg.array (response id error result)]
          = finished (s2, invoke k error result :: evs) /\
        invocations evs = 0%nat /\
        has_handler (handler_table s2) id = false /\
        packer s2 = packer s1 ++ queued /\
        (B k error result = [] -> queued = []).
Proof.
  intros Hd Hok Hfit. unfold get_api_info.
  destruct (store_spec (handler_table s) (target k) Hok)
    as (i & t1 & Hst & Hch & _ & Hok1 & Hat & _).
  destruct (id_of_index _ i Hfit (round_robin_choice_bound _ _ Hch))
    as (E32 & E64 & Hnull).
  rewrite E32 in Hst. rewrite Hst.
  destruct (rpc_request_appends (with_handler_table s t1) (Z.of_nat i)
              "nvim_get_api_info" [] d Hd)
    as (s1 & evs1 & d1 & Hreq & Hp & Hd1 & Htab & _).
  exists (Z.of_nat i), s1, evs1. cbn [packer handler_table with_handler_table] in *.
  split; [done|]. split; [done|]. split; [done|].
  assert (Hat' : handlers (handler_table s1) !! Z.to_nat (Z.of_nat i)
                 = Some (target k)) by (by rewrite Htab, Nat2Z.id).
  split.
  { apply has_handler_occupied; [lia|]. by exists k. }
  intros n error result Hcalls.
  destruct (route_response_in_place B s1 d1 (Z.of_nat i) k error result
              (msg.array (response (Z.of_nat i) error result)))
    as (s2 & evs & d2 & Hrun & Hroute & Hinv & _ & _ & [queued Hq]);
    [done|lia|done|done|by rewrite Htab|done|].
  exists (with_handler_table s2 (cleared (handler_table s2) (Z.of_nat i))), evs,
         queued.
  unfold io_can_read. cbn [ssize_of].
  destruct (Z.leb_spec (Z.of_nat (S n)) 0); [lia|].
  cbn [on_rpc_messages]. rewrite on_rpc_message_response, E64, Hroute, app_nil_r.
  split_and!; [done|done|by apply cleared_has_no_handler; lia|done|].
  intros Hquiet. rewrite Hquiet in Hrun. cbn [run_calls] in Hrun.
  injection Hrun as <- _. apply (f_equal length) in Hq.
  rewrite length_app in Hq. destruct queued; [done|cbn in Hq; lia].
Qed.

Lemma get_api_info_answered_witness :
  exists id s1 evs1,
    get_api_info (create_sources (neovim_new (mk_table [empty_handler; empty_handler] 0))).2
                 (target 8) = finished (s1, evs1) /\
    id <> null_msgid /\
    has_handler (handler_table s1) id = true /\
    exists s2 evs,
      io_can_read (reentrant 8 (target 9)) s1 (ssize_of (io_transferred 12))
                  [msg.array (response id msg.null (msg.array []))]
        = finished (s2, invoke 8 msg.null (msg.array []) :: evs) /\
      has_handler (handler_table s2) id = false.
Proof.
  destruct (get_api_info_answered (reentrant 8 (target 9))
              (create_sources (neovim_new (mk_table [empty_handler; empty_handler] 0))).2
              dispatch_source_create 8)
    as (id & s1 & evs1 & Hget & _ & Hnull & Hhas & Hans);
    [reflexivity|by_computation|by_computation|].
  exists id, s1, evs1. split; [exact Hget|]. split; [exact Hnull|].
  split; [exact Hhas|].
  destruct (Hans 11%nat msg.null (msg.array [])) as (s2 & evs & _ & Hread & _ & Hgone & _).
  { vm_compute in Hget. injection Hget as <- _. vm_compute. lia. }
  exists s2, evs. split; [exact Hread|exact Hgone].
Defined.

(** X14.  [quit] and [ui_attach] expect no answer: on a connected session
    each queues one request under the sentinel id and stores no handler,
    and the response the peer may send under that id is dropped by any
    session without a call or a log line. *)
Theorem fire_and_forget s d :
  write_source s = Some d ->
  (forall confirm, exists s1 evs,
      quit s confirm = finished (s1, evs) /\
      handler_table s1 = handler_table s /\
      packer s1 = packer s
                  ++ request_bytes null_msgid "nvim_command"
                       [arg_string (if confirm then "qa" else "qa!")])
  /\
  (forall width height, exists s1 evs,
      ui_attach s width height = finished (s1, evs) /\
      handler_table s1 = handler_table s /\
      packer s1 = packer s
                  ++ request_bytes null_msgid "nvim_ui_attach"
                       [arg_int width; arg_int height;
                        arg_options [("ext_linegrid"%string, true)]])
  /\
  (forall B s' error result,
      on_rpc_message B s' (msg.array (response null_msgid error result))
      = Some (s', [])).
Proof.
  intros Hd. split_and!.
  - intros confirm. unfold quit.
    destruct (rpc_request_appends s null_msgid "nvim_command"
                [arg_string (if confirm then "qa" else "qa!")] d Hd)
      as (s1 & evs & _ & Hreq & Hp & _ & Htab & _).
    by exists s1, evs.
  - intros width height. unfold ui_attach.
    destruct (rpc_request_appends s null_msgid "nvim_ui_attach"
                [arg_int width; arg_int height;
                 arg_options [("ext_linegrid"%string, true)]] d Hd)
      as (s1 & evs & _ & Hreq & Hp & _ & Htab & _).
    by exists s1, evs.
  - intros B s' error result. by rewrite on_rpc_message_response.
Qed.

Lemma fire_and_forget_witness :
  exists s1 evs,
    quit (create_sources (neovim_new (mk_table [target 2] 0))).2 false
      = finished (s1, evs) /\
    handler_table s1 = mk_table [target 2] 0.
Proof.
  destruct (fire_and_forget (create_sources (neovim_new (mk_table [target 2] 0))).2
              dispatch_source_create eq_refl) as (Hquit & _ & _).
  destruct (Hquit false) as (s1 & evs & Hq & Htab & _).
  exists s1, evs. split; [exact Hq|exact Htab].
Defined.

(** ** Reuse of ids *)

(** X15.  As long as some other slot is vacant, [store] does not hand out
    the id it handed out last: the search starts after the last index and
    comes back to it only when every other slot is occupied. *)
Theorem store_skips_last t h j :
  table_ok t -> vacant (handlers t) j -> j <> last_index t ->
  exists i t',
    store t h = Some (to_uint32 (Z.of_nat i), t') /\ i <> last_index t.
Proof.
  intros Hok Hj Hne.
  destruct (store_spec t h Hok) as (i & t' & Hst & Hch & _).
  exists i, t'. split; [done|]. intros ->.
  unfold round_robin_choice, table_ok, vacant in *.
  assert (Hfree : ~ occupied (handlers t) j).
  { intros [k Hk]. rewrite Hj in Hk. discriminate. }
  pose proof (lookup_lt_Some _ _ _ Hj) as Hjlt.
  destruct Hch as [(Hr & _)|[(_ & _ & Hafter & Hbefore)|(He & _)]]; [lia| |lia].
  apply Hfree.
  destruct (decide (j < last_index t)%nat); [apply Hbefore|apply Hafter]; lia.
Qed.

Lemma store_skips_last_witness :
  exists i t',
    store (mk_table [empty_handler; empty_handler; target 4] 0) (target 5)
      = Some (to_uint32 (Z.of_nat i), t')
    /\ i <> last_index (mk_table [empty_handler; empty_handler; target 4] 0).
Proof.
  apply (store_skips_last (mk_table [empty_handler; empty_handler; target 4] 0)
           (target 5) 1); by_computation.
Defined.

(** ** A failed [connect] and the destructor *)

(** X16.  The socket that [connect] leaves open when [::connect] fails is
    not closed later either: the session was never given sources, so its
    destructor returns at once and closes nothing. *)
Theorem failed_connect_socket_outlives_session t addr fd e w assertions :
  ~ exceeds_path_limit addr -> fd <> -1 ->
  exists w1,
    connect (neovim_new t) addr (succeeds fd) (fails e) w
      = (e, neovim_new t, w1) /\
    neovim_destroy assertions (neovim_new t) w1
      = finished (w1, [puts "neovim destructor"]) /\
    fd ∈ open_fds w1.
Proof.
  intros Hfit Hfd. unfold connect, exceeds_path_limit in *.
  destruct (Nat.leb_spec sun_path_size (String.length addr)); [lia|].
  cbn [socket]. destruct (Z.eqb_spec fd (-1)); [done|].
  cbn [sys_connect_call fcntl_cloexec calls open_fds errno Z.eqb].
  eexists. split; [reflexivity|]. split; [reflexivity|].
  cbn [open_fds]. apply elem_of_cons. by left.
Qed.

Lemma failed_connect_socket_outlives_session_witness :
  exists w1,
    connect (neovim_new (mk_table [empty_handler] 0)) "/tmp/nvim.sock"
            (succeeds 3) (fails 61) (mk_os [0; 1; 2] 0 [])
      = (61, neovim_new (mk_table [empty_handler] 0), w1) /\
    neovim_destroy true (neovim_new (mk_table [empty_handler] 0)) w1
      = finished (w1, [puts "neovim destructor"]) /\
    3 ∈ open_fds w1.
Proof.
  apply (failed_connect_socket_outlives_session (mk_table [empty_handler] 0)
           "/tmp/nvim.sock" 3 61 (mk_os [0; 1; 2] 0 []) true); by_computation.
Defined.
